(** * LightGBM: include/LightGBM/utils/openmp_wrapper.h

    A shallow embedding of the OpenMP wrapper header: the thread-count
    policy ([OMP_NUM_THREADS], [LGBM_DEFAULT_NUM_THREADS],
    [OMP_SET_NUM_THREADS]), the exception slot [ThreadExceptionHelper]
    with the [OMP_*_EX] macros, and the single-thread fall-back that the
    header gives when [_OPENMP] is not defined.

    Integers of the program are [Z]; the one place where the source
    narrows a [long] to an [int32_t] has its wrap-around written out. *)

From Stdlib Require Import ZArith Lia List Ascii String.
From stdpp Require Import gmap strings list.

Local Open Scope Z_scope.

(** ** The C library and the platform, as far as the header uses them *)

Module CLib.

(** The two data models the project is built for: [long] has 64 bits on
    Linux and macOS and 32 bits on Windows. *)
Inductive data_model := LP64 | LLP64.

Definition long_bits (dm : data_model) : Z :=
  match dm with LP64 => 64 | LLP64 => 32 end.

Definition LONG_MAX (dm : data_model) : Z := 2 ^ (long_bits dm - 1) - 1.
Definition LONG_MIN (dm : data_model) : Z := - 2 ^ (long_bits dm - 1).

Definition INT32_MAX : Z := 2147483647.
Definition INT32_MIN : Z := -2147483648.

(** Conversion of an integer to [int32_t]: the value modulo 2^32, taken
    in the signed range. *)
Definition to_int32 (z : Z) : Z := (z + 2 ^ 31) mod 2 ^ 32 - 2 ^ 31.

Definition char_code (c : ascii) : Z := Z.of_nat (nat_of_ascii c).

(** [isspace] in the "C" locale: space, and \t \n \v \f \r. *)
Definition isspace (c : ascii) : bool :=
  (char_code c =? 32) || ((9 <=? char_code c) && (char_code c <=? 13)).

(** The value of a decimal digit, [None] for any other character. *)
Definition digit_value (c : ascii) : option Z :=
  if (48 <=? char_code c) && (char_code c <=? 57)
  then Some (char_code c - 48) else None.

Fixpoint skip_space (s : string) : string :=
  match s with
  | String c s' => if isspace c then skip_space s' else s
  | EmptyString => s
  end.

(** The longest run of decimal digits at the head of [s], accumulated
    onto [acc]; the second component is the unread rest. *)
Fixpoint read_digits (acc : Z) (s : string) : Z * string :=
  match s with
  | String c s' =>
      match digit_value c with
      | Some d => read_digits (10 * acc + d) s'
      | None => (acc, s)
      end
  | EmptyString => (acc, s)
  end.

(** An optional sign: [true] for a minus. *)
Definition read_sign (s : string) : bool * string :=
  match s with
  | String "-" s' => (true, s')
  | String "+" s' => (false, s')
  | _ => (false, s)
  end.

Definition starts_with_digit (s : string) : bool :=
  match s with
  | String c _ => bool_decide (is_Some (digit_value c))
  | EmptyString => false
  end.

(** [strtol(nptr, &end, 10)]: white space, an optional sign, decimal
    digits.  With no digit there is no conversion: the result is 0 and
    [end] is [nptr].  A value outside [long] is clamped to [LONG_MAX] or
    [LONG_MIN].  The pair is the returned [long] and the string [end]
    points to. *)
Definition strtol10 (dm : data_model) (nptr : string) : Z * string :=
  let '(neg, s) := read_sign (skip_space nptr) in
  if starts_with_digit s then
    let '(v, rest) := read_digits 0 s in
    (if neg then Z.max (LONG_MIN dm) (- v) else Z.min (LONG_MAX dm) v, rest)
  else (0, nptr).

(** A decimal numeral, from its digits (most significant first), and the
    number it spells. *)
Definition digit_char (d : Z) : ascii := ascii_of_nat (Z.to_nat (48 + d)).

Fixpoint numeral (ds : list Z) : string :=
  match ds with
  | d :: ds' => String (digit_char d) (numeral ds')
  | [] => EmptyString
  end.

Definition numeral_value (ds : list Z) : Z :=
  fold_left (fun acc d => 10 * acc + d) ds 0.

Definition is_digit (d : Z) : Prop := 0 <= d <= 9.

(** The number a string spells for [strtol], before any clamping: the
    digits after the white space and the sign. *)
Definition magnitude (s : string) : Z :=
  fst (read_digits 0 (snd (read_sign (skip_space s)))).

(** What the text of an override says, in the words of the interface
    description: the variable is absent; the string has no number to
    convert (the empty string, or one that does not start with a number);
    the number is zero; it is negative; it is positive. *)
Inductive override_class :=
| Absent
| NoNumber
| Zero
| Negative
| Positive.

Definition classify (val : option string) : override_class :=
  match val with
  | None => Absent
  | Some s =>
      if starts_with_digit (snd (read_sign (skip_space s))) then
        if magnitude s =? 0 then Zero
        else if fst (read_sign (skip_space s)) then Negative
        else Positive
      else NoNumber
  end.

(** A string of white space only. *)
Fixpoint all_space (s : string) : bool :=
  match s with
  | String c s' => isspace c && all_space s'
  | EmptyString => true
  end.

End CLib.

Import CLib.

(** ** C++ exceptions, as far as the header uses them *)

Module Cxx.

(** A thrown object: one whose type derives from [std::exception], with
    its [what()] text, or an object of any other type. *)
Inductive exception :=
| StdException (what : string)
| OtherException (id : nat).

(** [std::exception_ptr]: [None] is the null pointer, [Some e] refers to
    the exception object [e]. *)
Definition exception_ptr : Type := option exception.

Definition nullptr : exception_ptr := None.

(** How a statement ends: control falls through, or an exception leaves
    it. *)
Inductive completion :=
| Normal
| Throw (e : exception).

(** How a call of a function that is [noexcept] ends: it returns, or an
    exception reaches its boundary and the program is ended by
    [std::terminate], with that exception the one in flight. No caller
    sees the exception. *)
Inductive noexcept_completion :=
| Returns
| Terminates (e : exception).

(** The boundary of a [noexcept] function around a body that ends as [c]. *)
Definition noexcept (c : completion) : noexcept_completion :=
  match c with
  | Normal => Returns
  | Throw e => Terminates e
  end.

(** [std::rethrow_exception(p)] for a non-null [p]. *)
Definition rethrow_exception (e : exception) : completion := Throw e.

End Cxx.

Import Cxx.

(** ** The build with OpenMP ([#ifdef _OPENMP]) *)

Module WithOpenMP.

(** *** The process: environment, OpenMP runtime, function-local statics *)

(** What the process does to the outside, in the order it happens. *)
Inductive event :=
| EvGetenv (name : string)      (* std::getenv(name) *)
| EvParallel                    (* a [#pragma omp parallel] region ran *)
| EvSetNumThreads (n : Z).      (* omp_set_num_threads(n) *)

(** The OpenMP runtime: [nthreads_var] is the value last given to
    [omp_set_num_threads] (or the runtime's start value), and
    [team_size] says how many threads a parallel region without a
    [num_threads] clause gets for a given [nthreads_var]. *)
Record omp_runtime := OmpRuntime {
  nthreads_var : Z;
  team_size : Z -> Z }.

(** The two [static const int] locals of [OMP_SET_NUM_THREADS] are [None]
    until control first passes their declarations. *)
Record process := Process {
  abi : data_model;
  environ : gmap string string;
  omp : omp_runtime;
  default_omp_num_threads : option Z;
  lgbm_default_num_threads : option Z;
  trace : list event }.

(** A computation of the process. *)
Definition M (A : Type) : Type := process -> A * process.

Definition ret {A} (a : A) : M A := fun p => (a, p).

Definition bind {A B} (c : M A) (k : A -> M B) : M B :=
  fun p => let '(a, p') := c p in k a p'.

Notation "'let*' x := c 'in' k" := (bind c (fun x => k))
  (at level 10, x name, c at level 100, k at level 200,
   format "'let*'  x  :=  c  'in'  '//' k").
Notation "'run' c 'in' k" := (bind c (fun _ => k))
  (at level 10, c at level 100, k at level 200,
   format "'run'  c  'in'  '//' k").

Definition exec {A} (c : M A) (p : process) : process := snd (c p).
Definition eval {A} (c : M A) (p : process) : A := fst (c p).

Definition emit (e : event) : M unit := fun p =>
  (tt, Process (abi p) (environ p) (omp p) (default_omp_num_threads p)
         (lgbm_default_num_threads p) (trace p ++ [e])).

Definition getenv (name : string) : M (option string) :=
  run emit (EvGetenv name) in
  fun p => (environ p !! name, p).

Definition strtol (nptr : string) : M (Z * string) :=
  fun p => (strtol10 (abi p) nptr, p).

Definition omp_set_num_threads (n : Z) : M unit :=
  run emit (EvSetNumThreads n) in
  fun p =>
  (tt, Process (abi p) (environ p) (OmpRuntime n (team_size (omp p)))
         (default_omp_num_threads p) (lgbm_default_num_threads p) (trace p)).

(** [#pragma omp parallel] followed by [#pragma omp master] around the
    block [{ ret = omp_get_num_threads(); }]: the master thread of the
    team runs the block once, and [omp_get_num_threads] is the size of
    the team. *)
Definition omp_parallel_master_get_num_threads : M Z :=
  run emit EvParallel in
  fun p => (team_size (omp p) (nthreads_var (omp p)), p).

(** [static const int x = init;] inside a function. *)
Definition static_const (get : process -> option Z)
    (set : Z -> process -> process) (init : M Z) : M Z :=
  fun p =>
    match get p with
    | Some v => (v, p)
    | None => let '(v, p') := init p in (v, set v p')
    end.

Definition set_default_omp_num_threads (v : Z) (p : process) : process :=
  Process (abi p) (environ p) (omp p) (Some v) (lgbm_default_num_threads p)
    (trace p).

Definition set_lgbm_default_num_threads (v : Z) (p : process) : process :=
  Process (abi p) (environ p) (omp p) (default_omp_num_threads p) (Some v)
    (trace p).

(** *** The thread-count policy (lines 21 to 51) *)

Definition OMP_NUM_THREADS : M Z :=
  let ret0 := 1 in
  let* ret1 := omp_parallel_master_get_num_threads in
  ret ret1.

Definition LGBM_DEFAULT_NUM_THREADS : M Z :=
  let* val := getenv "LGBM_DEFAULT_NUM_THREADS" in
  match val with
  | Some val =>
      let* r := strtol val in
      let ans := to_int32 (fst r) in
      if ans >? 0 then ret ans else ret (-1)
  | None => ret (-1)
  end.

Definition OMP_SET_NUM_THREADS (num_threads : Z) : M unit :=
  let* default_omp :=
    static_const default_omp_num_threads set_default_omp_num_threads
      OMP_NUM_THREADS in
  let* lgbm_default :=
    static_const lgbm_default_num_threads set_lgbm_default_num_threads
      LGBM_DEFAULT_NUM_THREADS in
  if lgbm_default >? 0 then omp_set_num_threads lgbm_default
  else if num_threads >? 0 then omp_set_num_threads num_threads
  else omp_set_num_threads default_omp.

(** *** Observations on a process *)

(** The arguments of the calls of [omp_set_num_threads], oldest first. *)
Fixpoint applied_counts (t : list event) : list Z :=
  match t with
  | EvSetNumThreads n :: t' => n :: applied_counts t'
  | _ :: t' => applied_counts t'
  | [] => []
  end.

(** How often the environment variable [name] was read. *)
Fixpoint getenv_count (name : string) (t : list event) : nat :=
  match t with
  | EvGetenv n :: t' =>
      ((if bool_decide (n = name) then 1 else 0) + getenv_count name t')%nat
  | _ :: t' => getenv_count name t'
  | [] => 0%nat
  end.

(** The thread count a call of [OMP_SET_NUM_THREADS] leaves active. *)
Definition active_num_threads (p : process) : Z := nthreads_var (omp p).

(** A process in which [OMP_SET_NUM_THREADS] has not run yet. *)
Definition fresh_process (dm : data_model) (env : gmap string string)
    (rt : omp_runtime) : process :=
  Process dm env rt None None [].

(** What else happens in the process between two calls of the resolver:
    the environment is changed, or some other code calls the runtime's
    own [omp_set_num_threads]. *)
Inductive action :=
| Call (requested : Z)
| Setenv (name value : string)
| Unsetenv (name : string)
| RawSetNumThreads (n : Z).

Definition setenv (name value : string) (p : process) : process :=
  Process (abi p) (<[name := value]> (environ p)) (omp p)
    (default_omp_num_threads p) (lgbm_default_num_threads p) (trace p).

Definition unsetenv (name : string) (p : process) : process :=
  Process (abi p) (delete name (environ p)) (omp p)
    (default_omp_num_threads p) (lgbm_default_num_threads p) (trace p).

Definition run_action (a : action) (p : process) : process :=
  match a with
  | Call requested => exec (OMP_SET_NUM_THREADS requested) p
  | Setenv name value => setenv name value p
  | Unsetenv name => unsetenv name p
  | RawSetNumThreads n => exec (omp_set_num_threads n) p
  end.

Definition run_actions (l : list action) (p : process) : process :=
  fold_left (fun q a => run_action a q) l p.

(** The thread count each [Call] of a run leaves active, oldest first. *)
Fixpoint calls_applied (l : list action) (p : process) : list Z :=
  match l with
  | a :: l' =>
      let p' := run_action a p in
      match a with
      | Call _ => active_num_threads p' :: calls_applied l' p'
      | _ => calls_applied l' p'
      end
  | [] => []
  end.

Definition is_call (a : action) : bool :=
  match a with Call _ => true | _ => false end.

(** What the probe of [OMP_NUM_THREADS] returned when the static was
    initialised, or what it returns now when that is still to happen. *)
Definition probe_result (p : process) : Z :=
  match default_omp_num_threads p with
  | Some d => d
  | None => eval OMP_NUM_THREADS p
  end.

(** The same for the environment override. *)
Definition override_result (p : process) : Z :=
  match lgbm_default_num_threads p with
  | Some v => v
  | None => eval LGBM_DEFAULT_NUM_THREADS p
  end.

(** The count a call resolves to, from the cached (or about to be cached)
    override and default. *)
Definition resolved (requested : Z) (p : process) : Z :=
  if override_result p >? 0 then override_result p
  else if requested >? 0 then requested
  else probe_result p.

(** The process with its trace replaced. *)
Definition with_trace (t : list event) (p : process) : process :=
  Process (abi p) (environ p) (omp p) (default_omp_num_threads p)
    (lgbm_default_num_threads p) t.

(** *** ThreadExceptionHelper (lines 53 to 78) *)

(** [lock_] is the thread that holds the mutex, [None] when it is free. *)
Record ThreadExceptionHelper := Helper {
  ex_ptr_ : exception_ptr;
  lock_ : option nat }.

Definition non_null (p : exception_ptr) : bool :=
  match p with Some _ => true | None => false end.

(** The constructor: [ex_ptr_ = nullptr], with a mutex nobody holds. *)
Definition ThreadExceptionHelper_new : ThreadExceptionHelper :=
  Helper nullptr None.

(** [ReThrow()] reads [ex_ptr_] and writes nothing. *)
Definition ReThrow (h : ThreadExceptionHelper)
    : completion * ThreadExceptionHelper :=
  match ex_ptr_ h with
  | Some e => (rethrow_exception e, h)
  | None => (Normal, h)
  end.

(** The destructor [~ThreadExceptionHelper() { ReThrow(); }]; the object is
    gone afterwards. The destructor is declared without an exception
    specification, and the header needs C++11 ([std::exception_ptr],
    [std::mutex]), where such a destructor is [noexcept]: the exception
    that [ReThrow()] throws in its body does not leave it. *)
Definition ThreadExceptionHelper_delete (h : ThreadExceptionHelper)
    : noexcept_completion :=
  noexcept (fst (ReThrow h)).

(** [CaptureException()] run without interference from other threads;
    [current] is what [std::current_exception()] gives the caller. The
    guard takes [lock_] at its declaration and gives it back when the
    function returns, so [lock_] is what it was. *)
Definition CaptureException (current : exception_ptr)
    (h : ThreadExceptionHelper) : ThreadExceptionHelper :=
  if non_null (ex_ptr_ h) then h
  else
    (* std::unique_lock<std::mutex> guard(lock_); *)
    if non_null (ex_ptr_ h) then h
    else Helper current (lock_ h).

(** A run of calls of [CaptureException], one after the other. *)
Definition capture_all (currents : list exception_ptr)
    (h : ThreadExceptionHelper) : ThreadExceptionHelper :=
  fold_left (fun h' cur => CaptureException cur h') currents h.

(** The first non-null pointer of a list. *)
Fixpoint first_non_null (l : list exception_ptr) : exception_ptr :=
  match l with
  | Some e :: _ => Some e
  | None :: l' => first_non_null l'
  | [] => None
  end.

(** *** The macros (lines 80 to 91) *)

(** The variable [omp_except_helper] that [OMP_INIT_EX()] declares, and
    the warnings written so far. *)
Record region := Region {
  omp_except_helper : ThreadExceptionHelper;
  warnings : list string }.

(** Modelled from the spec: [Log::Warning] of LightGBM/utils/log.h, which
    is not among the sources; the logging sink receives the text it is
    given. *)
Definition Log_Warning (msg : string) (r : region) : region :=
  Region (omp_except_helper r) (warnings r ++ [msg]).

Definition OMP_INIT_EX (warnings_so_far : list string) : region :=
  Region ThreadExceptionHelper_new warnings_so_far.

(** [OMP_LOOP_EX_BEGIN() body OMP_LOOP_EX_END()], where [body] is how the
    statements between the two macros end. Inside a handler
    [std::current_exception()] is the exception being handled. *)
Definition OMP_LOOP_EX (body : completion) (r : region)
    : completion * region :=
  match body with
  | Normal => (Normal, r)
  | Throw (StdException what as ex) =>
      let r1 := Log_Warning what r in
      (Normal,
       Region (CaptureException (Some ex) (omp_except_helper r1))
         (warnings r1))
  | Throw ex =>
      (Normal,
       Region (CaptureException (Some ex) (omp_except_helper r))
         (warnings r))
  end.

Definition OMP_THROW_EX (r : region) : completion * region :=
  let '(c, h) := ReThrow (omp_except_helper r) in
  (c, Region h (warnings r)).

(** The end of the scope that holds [omp_except_helper]. *)
Definition region_exit (r : region) : noexcept_completion :=
  ThreadExceptionHelper_delete (omp_except_helper r).

(** The iterations of a loop whose body stands between
    [OMP_LOOP_EX_BEGIN()] and [OMP_LOOP_EX_END()], in the order in which
    their handlers reach the helper; [bodies] says how each body ends. *)
Definition run_bodies (bodies : list completion) (r : region) : region :=
  fold_left (fun r' body => snd (OMP_LOOP_EX body r')) bodies r.

(** The first exception a list of bodies throws. *)
Fixpoint first_throw (bodies : list completion) : completion :=
  match bodies with
  | Throw e :: _ => Throw e
  | Normal :: bodies' => first_throw bodies'
  | [] => Normal
  end.

(** *** CaptureException, statement by statement, with several threads *)

(** Where a call of [CaptureException] stands: before the statement of
    line 69, 70, 71 or 72, before the guard's release at the closing
    brace (line 73), or returned. Each statement is one step, and all
    threads see the steps in one order. *)
Inductive pc := L69 | L70 | L71 | L72 | L73 | Returned.

(** One call: its place, and the exception in flight in its thread. *)
Record call := MkCall {
  at_ : pc;
  current_exception : exception_ptr }.

Definition goto (c : call) (l : pc) : call := MkCall l (current_exception c).

(** One statement of the call of thread [tid]; [None] when the call cannot
    move (it waits for the mutex, or it has returned). *)
Definition step_call (tid : nat) (c : call) (h : ThreadExceptionHelper)
    : option (call * ThreadExceptionHelper) :=
  match at_ c with
  | L69 => Some (if non_null (ex_ptr_ h) then goto c Returned
                 else goto c L70, h)
  | L70 => match lock_ h with
           | None => Some (goto c L71, Helper (ex_ptr_ h) (Some tid))
           | Some _ => None
           end
  | L71 => Some (if non_null (ex_ptr_ h) then goto c L73
                 else goto c L72, h)
  | L72 => Some (goto c L73, Helper (current_exception c) (lock_ h))
  | L73 => Some (goto c Returned, Helper (ex_ptr_ h) None)
  | Returned => None
  end.

(** The helper and the calls made on it: call number [tid] belongs to
    thread [tid]. *)
Record config := Config {
  helper : ThreadExceptionHelper;
  calls : list call }.

Definition step (tid : nat) (cfg : config) : option config :=
  match calls cfg !! tid with
  | Some c =>
      match step_call tid c (helper cfg) with
      | Some (c', h') => Some (Config h' (<[tid := c']> (calls cfg)))
      | None => None
      end
  | None => None
  end.

(** Any thread may move next. *)
Definition may_step (cfg cfg' : config) : Prop :=
  exists tid, step tid cfg = Some cfg'.

(** A schedule names the thread that moves at each turn; a thread that
    cannot move loses its turn. *)
Fixpoint run_schedule (sched : list nat) (cfg : config) : config :=
  match sched with
  | tid :: sched' =>
      run_schedule sched'
        (match step tid cfg with Some cfg' => cfg' | None => cfg end)
  | [] => cfg
  end.

(** All threads are about to call [CaptureException] on [h]. *)
Definition enter_all (currents : list exception_ptr)
    (h : ThreadExceptionHelper) : config :=
  Config h (map (MkCall L69) currents).

Definition holds_lock (l : pc) : bool :=
  match l with L71 | L72 | L73 => true | _ => false end.

(** The invariant of the mutex: a call between its lock and its unlock
    is the holder of [lock_], and a call about to write [ex_ptr_] has seen
    it null under the lock. *)
Definition mutex_inv (cfg : config) : Prop :=
  forall tid c, calls cfg !! tid = Some c ->
    (holds_lock (at_ c) = true -> lock_ (helper cfg) = Some tid) /\
    (at_ c = L72 -> ex_ptr_ (helper cfg) = None).

(** A call that is past its test under the lock, or has returned, and
    had an exception in flight, has left the slot non-null. *)
Definition is_past (l : pc) : bool :=
  match l with L73 | Returned => true | _ => false end.

Definition past_inv (cfg : config) : Prop :=
  forall tid c, calls cfg !! tid = Some c ->
    is_past (at_ c) = true -> non_null (current_exception c) = true ->
    non_null (ex_ptr_ (helper cfg)) = true.

Definition all_returned (cfg : config) : Prop :=
  Forall (fun c => at_ c = Returned) (calls cfg).

(** *** Further observations *)

(** How many parallel regions ran. *)
Fixpoint parallel_count (t : list event) : nat :=
  match t with
  | EvParallel :: t' => S (parallel_count t')
  | _ :: t' => parallel_count t'
  | [] => 0%nat
  end.

(** The requested counts of the calls of a run, oldest first. *)
Fixpoint requests (l : list action) : list Z :=
  match l with
  | Call requested :: l' => requested :: requests l'
  | _ :: l' => requests l'
  | [] => []
  end.

(** The [what()] texts of the bodies that throw a [std::exception], in
    order. *)
Fixpoint thrown_whats (bodies : list completion) : list string :=
  match bodies with
  | Throw (StdException what) :: bodies' => what :: thrown_whats bodies'
  | _ :: bodies' => thrown_whats bodies'
  | [] => []
  end.

(** The holder of the mutex is a call between its lock and its unlock. *)
Definition lock_inv (cfg : config) : Prop :=
  forall t, lock_ (helper cfg) = Some t ->
    exists c, calls cfg !! t = Some c /\ holds_lock (at_ c) = true.

(** The statements a call at [l] has before it at most. *)
Definition steps_left (l : pc) : nat :=
  match l with
  | L69 => 5 | L70 => 4 | L71 => 3 | L72 => 2 | L73 => 1 | Returned => 0
  end.

Definition remaining (cfg : config) : nat :=
  sum_list (steps_left ∘ at_ <$> calls cfg).

(** The turns of a schedule at which the named thread did move. *)
Fixpoint steps_taken (sched : list nat) (cfg : config) : nat :=
  match sched with
  | tid :: sched' =>
      match step tid cfg with
      | Some cfg' => S (steps_taken sched' cfg')
      | None => steps_taken sched' cfg
      end
  | [] => 0%nat
  end.

(** The schedule in which [n] threads, from thread [first] on, make their
    calls one after the other: five turns each. *)
Fixpoint one_by_one (first n : nat) : list nat :=
  match n with
  | S n' => repeat first 5 ++ one_by_one (S first) n'
  | O => []
  end.

End WithOpenMP.

(** ** The build without OpenMP (the [#else] branch, lines 93 to 134) *)

Module NoOpenMP.

Section World.

(** Whatever state the program has: none of these functions touches it. *)
Context {W : Type}.

Definition omp_set_num_threads (_ : Z) (w : W) : unit * W := (tt, w).
Definition OMP_SET_NUM_THREADS (_ : Z) (w : W) : unit * W := (tt, w).
Definition omp_get_num_threads (w : W) : Z * W := (1, w).
Definition omp_get_max_threads (w : W) : Z * W := (1, w).
Definition omp_get_thread_num (w : W) : Z * W := (0, w).
Definition OMP_NUM_THREADS (w : W) : Z * W := (1, w).

(** The four macros are defined with an empty replacement list.
    [OMP_INIT_EX()] declares nothing. *)
Definition OMP_INIT_EX (w : W) : completion * W := (Normal, w).

(** [OMP_LOOP_EX_BEGIN() body OMP_LOOP_EX_END()] is [body] alone. *)
Definition OMP_LOOP_EX (body : W -> completion * W) (w : W)
    : completion * W :=
  body w.

(** [OMP_THROW_EX();] is the empty statement. *)
Definition OMP_THROW_EX (w : W) : completion * W := (Normal, w).

End World.

End NoOpenMP.

Import WithOpenMP.

(** * Facts about the C library model *)

Lemma to_int32_range z : INT32_MIN <= to_int32 z <= INT32_MAX.
Proof.
  unfold to_int32, INT32_MIN, INT32_MAX.
  pose proof (Z.mod_pos_bound (z + 2 ^ 31) (2 ^ 32) ltac:(lia)). lia.
Qed.

Lemma to_int32_small z : INT32_MIN <= z <= INT32_MAX -> to_int32 z = z.
Proof.
  unfold to_int32, INT32_MIN, INT32_MAX. intros Hz.
  rewrite Z.mod_small; lia.
Qed.

Lemma LONG_bounds dm :
  LONG_MIN dm <= INT32_MIN /\ LONG_MIN dm < 0 < LONG_MAX dm /\
  INT32_MAX <= LONG_MAX dm.
Proof. by destruct dm. Qed.

Lemma digit_value_range c d : digit_value c = Some d -> 0 <= d <= 9.
Proof.
  unfold digit_value.
  destruct (_ && _) eqn:E; [|discriminate]. intros [= <-].
  apply andb_true_iff in E as [E1 E2]. lia.
Qed.

Lemma read_digits_ge acc s : 0 <= acc -> acc <= fst (read_digits acc s).
Proof.
  revert acc. induction s as [|c s IH]; intros acc Hacc; simpl; [lia|].
  destruct (digit_value c) as [d|] eqn:E; simpl; [|lia].
  apply digit_value_range in E.
  etransitivity; [|apply IH]; lia.
Qed.

Lemma magnitude_nonneg s : 0 <= magnitude s.
Proof. apply read_digits_ge. lia. Qed.

Lemma strtol10_no_conversion dm s :
  starts_with_digit (snd (read_sign (skip_space s))) = false ->
  strtol10 dm s = (0, s).
Proof.
  unfold strtol10. destruct (read_sign (skip_space s)) as [neg r]. simpl.
  by intros ->.
Qed.

Lemma strtol10_conversion dm s :
  starts_with_digit (snd (read_sign (skip_space s))) = true ->
  strtol10 dm s =
    (let '(neg, r) := read_sign (skip_space s) in
     if neg then Z.max (LONG_MIN dm) (- fst (read_digits 0 r))
     else Z.min (LONG_MAX dm) (fst (read_digits 0 r)),
     snd (read_digits 0 (snd (read_sign (skip_space s))))).
Proof.
  unfold strtol10. destruct (read_sign (skip_space s)) as [neg r]. simpl.
  intros ->. by destruct (read_digits 0 r).
Qed.

(** The result of [strtol] is a [long]. *)
Lemma strtol10_range dm s : LONG_MIN dm <= fst (strtol10 dm s) <= LONG_MAX dm.
Proof.
  pose proof (LONG_bounds dm) as (_ & ? & _).
  destruct (starts_with_digit (snd (read_sign (skip_space s)))) eqn:E.
  - rewrite strtol10_conversion by done.
    pose proof (magnitude_nonneg s) as Hm. unfold magnitude in Hm.
    destruct (read_sign (skip_space s)) as [neg r]. simpl in *.
    destruct neg; lia.
  - rewrite strtol10_no_conversion by done. simpl. lia.
Qed.

(** What [strtol] returns for each class of text. *)
Lemma strtol10_classify dm s :
  fst (strtol10 dm s) =
    match classify (Some s) with
    | Negative => Z.max (LONG_MIN dm) (- magnitude s)
    | Positive => Z.min (LONG_MAX dm) (magnitude s)
    | _ => 0
    end.
Proof.
  pose proof (LONG_bounds dm) as (_ & ? & _).
  unfold classify, magnitude.
  destruct (starts_with_digit (snd (read_sign (skip_space s)))) eqn:E.
  - rewrite strtol10_conversion by done.
    destruct (read_sign (skip_space s)) as [neg r]. simpl.
    destruct (Z.eqb_spec (fst (read_digits 0 r)) 0) as [->|]; [|by destruct neg].
    destruct neg; lia.
  - by rewrite strtol10_no_conversion.
Qed.

Lemma classify_Negative_magnitude s :
  classify (Some s) = Negative -> 0 < magnitude s.
Proof.
  unfold classify. pose proof (magnitude_nonneg s).
  destruct (starts_with_digit _); [|done].
  destruct (Z.eqb_spec (magnitude s) 0); [done|]. lia.
Qed.

(** *** Decimal numerals *)

(** Case analysis on a digit. *)
Ltac each_digit d H :=
  let Hd := fresh "Hd" in
  assert (d = 0 \/ d = 1 \/ d = 2 \/ d = 3 \/ d = 4 \/
          d = 5 \/ d = 6 \/ d = 7 \/ d = 8 \/ d = 9) as Hd
    by (unfold is_digit in H; lia);
  repeat (destruct Hd as [->|Hd]; [reflexivity|]); subst d; reflexivity.

Lemma digit_value_digit_char d :
  is_digit d -> digit_value (digit_char d) = Some d.
Proof. intros H. each_digit d H. Qed.

Lemma isspace_digit_char d : is_digit d -> isspace (digit_char d) = false.
Proof. intros H. each_digit d H. Qed.

Lemma read_sign_digit_char d s :
  is_digit d ->
  read_sign (String (digit_char d) s) = (false, String (digit_char d) s).
Proof. intros H. each_digit d H. Qed.

Lemma read_digits_numeral acc ds :
  Forall is_digit ds ->
  read_digits acc (numeral ds) =
    (fold_left (fun a d => 10 * a + d) ds acc, EmptyString).
Proof.
  intros Hds. revert acc.
  induction Hds as [|d ds Hd _ IH]; intros acc; [done|].
  simpl. by rewrite digit_value_digit_char.
Qed.

Lemma strtol10_numeral dm d ds :
  Forall is_digit (d :: ds) ->
  strtol10 dm (numeral (d :: ds)) =
    (Z.min (LONG_MAX dm) (numeral_value (d :: ds)), EmptyString).
Proof.
  intros Hds. pose proof (Forall_inv Hds) as Hd.
  assert (Hskip : skip_space (numeral (d :: ds)) = numeral (d :: ds)).
  { simpl. by rewrite isspace_digit_char. }
  rewrite strtol10_conversion; rewrite Hskip; simpl numeral;
    rewrite read_sign_digit_char by done; simpl.
  - rewrite digit_value_digit_char by done.
    by rewrite (read_digits_numeral _ ds (Forall_inv_tail Hds)).
  - by rewrite digit_value_digit_char.
Qed.

Example numeral_16 : numeral [1; 6] = "16"%string.
Proof. reflexivity. Qed.

(** * The thread-count policy *)

Lemma OMP_NUM_THREADS_run p :
  OMP_NUM_THREADS p =
    (team_size (omp p) (nthreads_var (omp p)),
     with_trace (trace p ++ [EvParallel]) p).
Proof. reflexivity. Qed.

Lemma LGBM_DEFAULT_NUM_THREADS_eval p :
  eval LGBM_DEFAULT_NUM_THREADS p =
    match environ p !! "LGBM_DEFAULT_NUM_THREADS" with
    | Some val =>
        if to_int32 (fst (strtol10 (abi p) val)) >? 0
        then to_int32 (fst (strtol10 (abi p) val)) else -1
    | None => -1
    end.
Proof.
  unfold eval, LGBM_DEFAULT_NUM_THREADS, getenv, bind, emit, strtol, ret.
  simpl. destruct (environ p !! _) as [val|]; [|done].
  by destruct (_ >? 0).
Qed.

(** The override parser reads the environment once and changes nothing
    else; its value depends on the data model and the environment
    alone. *)
Lemma LGBM_DEFAULT_NUM_THREADS_run p :
  LGBM_DEFAULT_NUM_THREADS p =
    (eval LGBM_DEFAULT_NUM_THREADS p,
     with_trace (trace p ++ [EvGetenv "LGBM_DEFAULT_NUM_THREADS"]) p).
Proof.
  unfold eval, LGBM_DEFAULT_NUM_THREADS, getenv, bind, emit, strtol, ret,
    with_trace. simpl.
  destruct (environ p !! _) as [val|]; [|done].
  by destruct (_ >? 0).
Qed.

Lemma LGBM_DEFAULT_NUM_THREADS_eval_ext p q :
  abi p = abi q -> environ p = environ q ->
  eval LGBM_DEFAULT_NUM_THREADS p = eval LGBM_DEFAULT_NUM_THREADS q.
Proof.
  intros Habi Henv. rewrite !LGBM_DEFAULT_NUM_THREADS_eval.
  by rewrite Habi, Henv.
Qed.

(** The sentinel is the only non-positive result, and a positive result
    is an [int]. *)
Lemma LGBM_DEFAULT_NUM_THREADS_cases p :
  eval LGBM_DEFAULT_NUM_THREADS p = -1 \/
  1 <= eval LGBM_DEFAULT_NUM_THREADS p <= INT32_MAX.
Proof.
  rewrite LGBM_DEFAULT_NUM_THREADS_eval.
  destruct (environ p !! _) as [val|]; [|by left].
  pose proof (to_int32_range (fst (strtol10 (abi p) val))).
  destruct (Z.gtb_spec (to_int32 (fst (strtol10 (abi p) val))) 0);
    [right; lia | by left].
Qed.

Lemma omp_set_num_threads_run n p :
  omp_set_num_threads n p =
    (tt, Process (abi p) (environ p) (OmpRuntime n (team_size (omp p)))
           (default_omp_num_threads p) (lgbm_default_num_threads p)
           (trace p ++ [EvSetNumThreads n])).
Proof. reflexivity. Qed.

(** One call of the resolver, in full. *)
Lemma OMP_SET_NUM_THREADS_run requested p :
  OMP_SET_NUM_THREADS requested p =
    (tt,
     Process (abi p) (environ p)
       (OmpRuntime (resolved requested p) (team_size (omp p)))
       (Some (probe_result p)) (Some (override_result p))
       (trace p
        ++ (if default_omp_num_threads p is Some _ then [] else [EvParallel])
        ++ (if lgbm_default_num_threads p is Some _ then []
            else [EvGetenv "LGBM_DEFAULT_NUM_THREADS"])
        ++ [EvSetNumThreads (resolved requested p)])).
Proof.
  unfold resolved, probe_result, override_result.
  destruct p as [dm env rt d o t]. simpl.
  unfold OMP_SET_NUM_THREADS, bind, static_const. simpl.
  destruct d as [d|], o as [o|]; simpl.
  - by destruct (o >? 0), (requested >? 0).
  - rewrite LGBM_DEFAULT_NUM_THREADS_run. simpl.
    set (ov := eval LGBM_DEFAULT_NUM_THREADS _).
    destruct (ov >? 0), (requested >? 0);
      rewrite omp_set_num_threads_run; simpl; by rewrite <- app_assoc.
  - destruct (o >? 0), (requested >? 0);
      rewrite omp_set_num_threads_run; simpl; by rewrite <- app_assoc.
  - rewrite LGBM_DEFAULT_NUM_THREADS_run. simpl.
    rewrite (LGBM_DEFAULT_NUM_THREADS_eval_ext _
               (Process dm env rt None None t)) by done.
    set (ov := eval LGBM_DEFAULT_NUM_THREADS _).
    destruct (ov >? 0), (requested >? 0);
      rewrite omp_set_num_threads_run; simpl; by rewrite <- !app_assoc.
Qed.

Lemma exec_OMP_SET_NUM_THREADS requested p :
  exec (OMP_SET_NUM_THREADS requested) p =
    Process (abi p) (environ p)
      (OmpRuntime (resolved requested p) (team_size (omp p)))
      (Some (probe_result p)) (Some (override_result p))
      (trace p
       ++ (if default_omp_num_threads p is Some _ then [] else [EvParallel])
       ++ (if lgbm_default_num_threads p is Some _ then []
           else [EvGetenv "LGBM_DEFAULT_NUM_THREADS"])
       ++ [EvSetNumThreads (resolved requested p)]).
Proof. unfold exec. by rewrite OMP_SET_NUM_THREADS_run. Qed.

Lemma applied_counts_app t1 t2 :
  applied_counts (t1 ++ t2) = applied_counts t1 ++ applied_counts t2.
Proof.
  induction t1 as [|[] t1 IH]; simpl; [done| | |]; by rewrite ?IH.
Qed.

Lemma getenv_count_app name t1 t2 :
  getenv_count name (t1 ++ t2) =
    (getenv_count name t1 + getenv_count name t2)%nat.
Proof.
  induction t1 as [|[] t1 IH]; simpl; [done| | |]; rewrite ?IH; lia.
Qed.

(** *** The statics are written once *)

Section Cached.

Context (p : process) (v d : Z).
Hypothesis Hoverride : lgbm_default_num_threads p = Some v.

Lemma run_action_keeps_override a :
  lgbm_default_num_threads (run_action a p) = Some v.
Proof.
  destruct a; simpl; try done.
  rewrite exec_OMP_SET_NUM_THREADS. simpl.
  unfold override_result. by rewrite Hoverride.
Qed.

(** With the override in its static, the environment is not read again. *)
Lemma run_action_no_getenv a name :
  getenv_count name (trace (run_action a p)) = getenv_count name (trace p).
Proof.
  destruct a as [r| | |n]; simpl; try done.
  - rewrite exec_OMP_SET_NUM_THREADS. simpl. rewrite Hoverride.
    rewrite !getenv_count_app. destruct (default_omp_num_threads p); simpl; lia.
  - unfold exec, omp_set_num_threads, bind, emit. simpl.
    rewrite getenv_count_app. simpl. lia.
Qed.

(** A cached positive override decides a call. *)
Lemma Call_applies_override r :
  0 < v -> active_num_threads (run_action (Call r) p) = v.
Proof.
  intros Hv. simpl. unfold active_num_threads.
  rewrite exec_OMP_SET_NUM_THREADS. simpl.
  unfold resolved, override_result. rewrite Hoverride.
  destruct (Z.gtb_spec v 0); [done | lia].
Qed.

Hypothesis Hdefault : default_omp_num_threads p = Some d.

Lemma Call_applies_positive r :
  1 <= d -> 1 <= active_num_threads (run_action (Call r) p).
Proof.
  intros Hd. simpl. unfold active_num_threads.
  rewrite exec_OMP_SET_NUM_THREADS. simpl.
  unfold resolved, override_result, probe_result.
  rewrite Hoverride, Hdefault.
  destruct (Z.gtb_spec v 0); [lia|].
  destruct (Z.gtb_spec r 0); lia.
Qed.

End Cached.

Lemma run_action_keeps_default a p d :
  default_omp_num_threads p = Some d ->
  default_omp_num_threads (run_action a p) = Some d.
Proof.
  intros H. destruct a; simpl; try done.
  rewrite exec_OMP_SET_NUM_THREADS. simpl.
  unfold probe_result. by rewrite H.
Qed.

Lemma run_actions_keeps_override l p v :
  lgbm_default_num_threads p = Some v ->
  lgbm_default_num_threads (run_actions l p) = Some v.
Proof.
  revert p. induction l as [|a l IH]; intros p H; [done|].
  apply IH. by apply run_action_keeps_override.
Qed.

Lemma run_actions_keeps_default l p d :
  default_omp_num_threads p = Some d ->
  default_omp_num_threads (run_actions l p) = Some d.
Proof.
  revert p. induction l as [|a l IH]; intros p H; [done|].
  apply IH. by apply run_action_keeps_default.
Qed.

Lemma run_actions_no_getenv l p v name :
  lgbm_default_num_threads p = Some v ->
  getenv_count name (trace (run_actions l p)) = getenv_count name (trace p).
Proof.
  revert p. induction l as [|a l IH]; intros p H; [done|].
  simpl. rewrite IH by (by apply run_action_keeps_override).
  by eapply run_action_no_getenv.
Qed.

Lemma calls_applied_cons a l p :
  calls_applied (a :: l) p =
    (if is_call a then [active_num_threads (run_action a p)] else [])
    ++ calls_applied l (run_action a p).
Proof. by destruct a. Qed.

Lemma calls_applied_length l p :
  length (calls_applied l p) = length (filter is_call l).
Proof.
  revert p. induction l as [|a l IH]; intros p; [done|].
  rewrite calls_applied_cons, length_app, IH. by destruct a.
Qed.

Lemma calls_applied_override l p v :
  lgbm_default_num_threads p = Some v -> 0 < v ->
  calls_applied l p = repeat v (length (filter is_call l)).
Proof.
  revert p. induction l as [|a l IH]; intros p H Hv; [done|].
  rewrite calls_applied_cons.
  rewrite (IH _ (run_action_keeps_override p v H a) Hv).
  destruct a as [r| | |n]; try done.
  by rewrite (Call_applies_override p v H r Hv).
Qed.

(** A cached default of at least one keeps every later call at one or
    more. *)
Lemma calls_applied_positive l p d v :
  default_omp_num_threads p = Some d -> 1 <= d ->
  lgbm_default_num_threads p = Some v ->
  Forall (fun n => 1 <= n) (calls_applied l p).
Proof.
  revert p. induction l as [|a l IH]; intros p H Hd Hv; [by constructor|].
  rewrite calls_applied_cons. apply Forall_app. split.
  - destruct a as [r| | |n]; try by constructor.
    constructor; [|by constructor].
    by apply (Call_applies_positive p v d Hv H r).
  - apply IH; [by apply run_action_keeps_default | done |
               by apply run_action_keeps_override].
Qed.

(** C1: every call of OMP_SET_NUM_THREADS(requested) passes one count to
    omp_set_num_threads and leaves it active: the override when that is
    positive, whatever requested is; otherwise requested when that is
    positive; otherwise the default. The override is the value the static
    holds or, on the first call, what the text of the environment
    variable LGBM_DEFAULT_NUM_THREADS parses to (-1 when the variable is
    absent or gives no positive int32_t); the default is the value the
    static holds or, on the first call, the size of the team the runtime
    gives the probing parallel region. Both are in the statics
    afterwards. *)
Theorem OMP_SET_NUM_THREADS_priority (requested : Z) (p : process) :
  let override :=
    match lgbm_default_num_threads p with
    | Some cached => cached
    | None =>
        match environ p !! "LGBM_DEFAULT_NUM_THREADS" with
        | Some val =>
            if to_int32 (fst (strtol10 (abi p) val)) >? 0
            then to_int32 (fst (strtol10 (abi p) val)) else -1
        | None => -1
        end
    end in
  let default :=
    match default_omp_num_threads p with
    | Some cached => cached
    | None => team_size (omp p) (nthreads_var (omp p))
    end in
  let applied :=
    if override >? 0 then override
    else if requested >? 0 then requested
    else default in
  let p' := exec (OMP_SET_NUM_THREADS requested) p in
  active_num_threads p' = applied /\
  applied_counts (trace p') = applied_counts (trace p) ++ [applied] /\
  lgbm_default_num_threads p' = Some override /\
  default_omp_num_threads p' = Some default /\
  environ p' = environ p /\
  team_size (omp p') = team_size (omp p).
Proof.
  intros override default applied p'.
  assert (Ho : override_result p = override).
  { unfold override_result. subst override.
    destruct (lgbm_default_num_threads p); [done|].
    apply LGBM_DEFAULT_NUM_THREADS_eval. }
  assert (Hd : probe_result p = default).
  { unfold probe_result. subst default.
    by destruct (default_omp_num_threads p). }
  assert (Hr : resolved requested p = applied).
  { unfold resolved. by rewrite Ho, Hd. }
  subst p'. rewrite exec_OMP_SET_NUM_THREADS. unfold active_num_threads.
  simpl. rewrite Ho, Hd, Hr. repeat split.
  rewrite !applied_counts_app.
  destruct (default_omp_num_threads p), (lgbm_default_num_threads p); done.
Qed.

(** The three sources at work in one process: the override 6 from the
    environment decides every call; without it a positive request is
    applied, and the probed default 8 otherwise. *)
Example OMP_SET_NUM_THREADS_priority_runs :
  calls_applied [Call 4; Call 0; Call (-2)]
    (fresh_process LP64 {["LGBM_DEFAULT_NUM_THREADS" := "6"]}
       (OmpRuntime 8 (fun n => n))) = [6; 6; 6] /\
  calls_applied [Call 4; Call 0; Call (-2)]
    (fresh_process LP64 ∅ (OmpRuntime 8 (fun n => n))) = [4; 8; 8].
Proof. vm_compute. split; reflexivity. Qed.

(** C8: a call of the resolver always returns, for every requested value,
    and when the probe of the runtime gives (or gave, when it is cached)
    at least one thread, the count that this call and every later call in
    the process applies is at least one. *)
Theorem OMP_SET_NUM_THREADS_at_least_one
    (requested : Z) (l : list action) (p : process) :
  1 <= probe_result p ->
  let p' := exec (OMP_SET_NUM_THREADS requested) p in
  OMP_SET_NUM_THREADS requested p = (tt, p') /\
  1 <= active_num_threads p' /\
  last (applied_counts (trace p')) = Some (active_num_threads p') /\
  Forall (fun n => 1 <= n) (calls_applied (Call requested :: l) p) /\
  length (calls_applied (Call requested :: l) p) =
    S (length (filter is_call l)).
Proof.
  intros Hprobe p'.
  assert (Hact : 1 <= active_num_threads p').
  { subst p'. unfold active_num_threads.
    rewrite exec_OMP_SET_NUM_THREADS. simpl. unfold resolved.
    destruct (Z.gtb_spec (override_result p) 0); [lia|].
    destruct (Z.gtb_spec requested 0); lia. }
  split; [|split; [done|split; [|split]]].
  - subst p'. unfold exec. by rewrite OMP_SET_NUM_THREADS_run.
  - subst p'. unfold active_num_threads.
    rewrite exec_OMP_SET_NUM_THREADS. simpl.
    rewrite !app_assoc, applied_counts_app. simpl. by rewrite last_snoc.
  - simpl. constructor; [done|]. fold p'.
    apply (calls_applied_positive l p' (probe_result p) (override_result p));
      [| done |]; subst p'; by rewrite exec_OMP_SET_NUM_THREADS.
  - simpl. by rewrite calls_applied_length.
Qed.

Lemma OMP_SET_NUM_THREADS_at_least_one_witness :
  let p := fresh_process LP64 ∅ (OmpRuntime 8 (fun n => n)) in
  let l := [Call 0; Setenv "LGBM_DEFAULT_NUM_THREADS" "3"; Call 5] in
  1 <= probe_result p /\
  Forall (fun n => 1 <= n) (calls_applied (Call (-3) :: l) p).
Proof.
  intros p l.
  assert (H : 1 <= probe_result p) by (vm_compute; discriminate).
  split; [exact H|].
  apply (OMP_SET_NUM_THREADS_at_least_one (-3) l p H).
Defined.

(** C9: in a process whose override parses to a positive value v, the
    first call of the resolver and every later one apply v, whatever they
    request and whatever is done to the environment or to the runtime in
    between; the environment variable is read by the first call only (not
    at all when the static already holds the value), and the static holds
    v from then on. *)
Theorem OMP_SET_NUM_THREADS_override_fixed
    (v requested : Z) (l : list action) (p : process) :
  override_result p = v -> 0 < v ->
  let p' := run_actions (Call requested :: l) p in
  calls_applied (Call requested :: l) p =
    repeat v (length (filter is_call (Call requested :: l))) /\
  lgbm_default_num_threads p' = Some v /\
  getenv_count "LGBM_DEFAULT_NUM_THREADS" (trace p') =
    (getenv_count "LGBM_DEFAULT_NUM_THREADS" (trace p) +
     (if lgbm_default_num_threads p is Some _ then 0 else 1))%nat.
Proof.
  intros Hov Hv p'.
  set (p1 := exec (OMP_SET_NUM_THREADS requested) p).
  assert (H1 : lgbm_default_num_threads p1 = Some v).
  { subst p1. rewrite exec_OMP_SET_NUM_THREADS. simpl. by rewrite Hov. }
  split; [|split].
  - simpl. fold p1. rewrite (calls_applied_override l p1 v H1 Hv).
    f_equal. subst p1. unfold active_num_threads.
    rewrite exec_OMP_SET_NUM_THREADS. simpl. unfold resolved. rewrite Hov.
    destruct (Z.gtb_spec v 0); [done | lia].
  - subst p'. simpl. fold p1. by apply run_actions_keeps_override.
  - subst p'. simpl. fold p1.
    rewrite (run_actions_no_getenv l p1 v) by done.
    subst p1. rewrite exec_OMP_SET_NUM_THREADS. simpl.
    rewrite !getenv_count_app.
    destruct (default_omp_num_threads p), (lgbm_default_num_threads p);
      simpl; lia.
Qed.

Lemma OMP_SET_NUM_THREADS_override_fixed_witness :
  let p := fresh_process LP64 {["LGBM_DEFAULT_NUM_THREADS" := "6"]}
             (OmpRuntime 8 (fun n => n)) in
  let l := [Call 0; Setenv "LGBM_DEFAULT_NUM_THREADS" "3"; Call (-2);
            Unsetenv "LGBM_DEFAULT_NUM_THREADS"; RawSetNumThreads 2;
            Call 16] in
  (override_result p = 6 /\ 0 < 6) /\
  calls_applied (Call 4 :: l) p = [6; 6; 6; 6] /\
  getenv_count "LGBM_DEFAULT_NUM_THREADS"
    (trace (run_actions (Call 4 :: l) p)) = 1%nat.
Proof.
  intros p l.
  assert (H : override_result p = 6) by (vm_compute; reflexivity).
  split; [split; [exact H | lia]|].
  destruct (OMP_SET_NUM_THREADS_override_fixed 6 4 l p H ltac:(lia))
    as (Happ & _ & Hcount).
  split; [exact Happ | exact Hcount].
Defined.

(** * The environment override *)

(** A numeral for a number from 1 to [INT32_MAX] is taken as that
    number, on both data models. *)
Lemma LGBM_DEFAULT_NUM_THREADS_numeral p d ds :
  environ p !! "LGBM_DEFAULT_NUM_THREADS" = Some (numeral (d :: ds)) ->
  Forall is_digit (d :: ds) ->
  0 < numeral_value (d :: ds) <= INT32_MAX ->
  eval LGBM_DEFAULT_NUM_THREADS p = numeral_value (d :: ds).
Proof.
  intros Henv Hds Hv. rewrite LGBM_DEFAULT_NUM_THREADS_eval, Henv.
  rewrite strtol10_numeral by done. unfold fst.
  pose proof (LONG_bounds (abi p)) as (_ & _ & ?).
  rewrite Z.min_r by lia.
  rewrite to_int32_small by (unfold INT32_MIN; lia).
  destruct (Z.gtb_spec (numeral_value (d :: ds)) 0); [done | lia].
Qed.

(** An override that is absent, has no number, or spells zero is always
    answered with the sentinel; so is a negative one whose value fits an
    [int32_t], and every negative one where [long] has 32 bits. *)
Lemma LGBM_DEFAULT_NUM_THREADS_malformed p :
  let val := environ p !! "LGBM_DEFAULT_NUM_THREADS" in
  classify val <> Positive ->
  (classify val = Negative ->
   abi p = LLP64 \/ forall s, val = Some s -> magnitude s <= 2 ^ 31) ->
  eval LGBM_DEFAULT_NUM_THREADS p = -1.
Proof.
  intros val Hclass Hfit. rewrite LGBM_DEFAULT_NUM_THREADS_eval.
  fold val. destruct val as [s|] eqn:Ev; [|done].
  rewrite strtol10_classify.
  destruct (classify (Some s)) eqn:Ec; try done.
  pose proof (classify_Negative_magnitude s Ec) as Hm.
  assert (Hr : INT32_MIN <= Z.max (LONG_MIN (abi p)) (- magnitude s) < 0).
  { unfold INT32_MIN.
    destruct (Hfit eq_refl) as [-> | Hs].
    - unfold LONG_MIN. simpl. lia.
    - specialize (Hs s eq_refl).
      pose proof (LONG_bounds (abi p)) as (? & _). unfold INT32_MIN in *. lia. }
  rewrite to_int32_small by (unfold INT32_MAX; lia).
  destruct (Z.gtb_spec (Z.max (LONG_MIN (abi p)) (- magnitude s)) 0); [lia|done].
Qed.

(** With the sentinel cached or about to be, the resolver falls through
    to the requested count, and from there to the default. *)
Lemma resolved_fall_through requested p :
  override_result p = -1 ->
  resolved requested p =
    if requested >? 0 then requested else probe_result p.
Proof. unfold resolved. by intros ->. Qed.

(** Text after the number is not looked at: [end] is never read. *)
Example LGBM_DEFAULT_NUM_THREADS_prefix :
  eval LGBM_DEFAULT_NUM_THREADS
    (fresh_process LP64 {["LGBM_DEFAULT_NUM_THREADS" := "4x"]}
       (OmpRuntime 8 (fun n => n))) = 4.
Proof. vm_compute. reflexivity. Qed.

(** Where [long] has 32 bits the same text is clamped by [strtol] and
    stays negative. *)
Example LGBM_DEFAULT_NUM_THREADS_negative_LLP64 :
  let p := fresh_process LLP64 {["LGBM_DEFAULT_NUM_THREADS" := "-4294967295"]}
             (OmpRuntime 8 (fun n => n)) in
  eval LGBM_DEFAULT_NUM_THREADS p = -1 /\
  calls_applied [Call 4; Call 0] p = [4; 8].
Proof. vm_compute. split; reflexivity. Qed.

(** C6, at the input where the code leaves the claim: with a 64-bit
    [long] the text -4294967295 is a negative number that [strtol]
    returns unclamped; narrowed to [int32_t] it is 1, which passes the
    test [ans > 0]. The override is taken as 1: a call requesting 4
    threads applies 1, and so does a call requesting none, where the
    default is 8. *)
Theorem LGBM_DEFAULT_NUM_THREADS_negative_wraps :
  let p := fresh_process LP64 {["LGBM_DEFAULT_NUM_THREADS" := "-4294967295"]}
             (OmpRuntime 8 (fun n => n)) in
  classify (environ p !! "LGBM_DEFAULT_NUM_THREADS") = Negative /\
  strtol10 LP64 "-4294967295" = (-4294967295, EmptyString) /\
  eval LGBM_DEFAULT_NUM_THREADS p = 1 /\
  calls_applied [Call 4; Call 0] p = [1; 1].
Proof. vm_compute. repeat split. Qed.

(** * The exception slot *)

Lemma CaptureException_held cur h e :
  ex_ptr_ h = Some e -> CaptureException cur h = h.
Proof. unfold CaptureException. by intros ->. Qed.

Lemma CaptureException_empty cur h :
  ex_ptr_ h = None -> CaptureException cur h = Helper cur (lock_ h).
Proof. unfold CaptureException. by intros ->. Qed.

Lemma capture_all_held curs h e :
  ex_ptr_ h = Some e -> capture_all curs h = h.
Proof.
  intros H. induction curs as [|cur curs IH]; [done|].
  unfold capture_all in *. simpl. by rewrite (CaptureException_held cur h e).
Qed.

Lemma capture_all_lock curs h : lock_ (capture_all curs h) = lock_ h.
Proof.
  revert h. induction curs as [|cur curs IH]; intros h; [done|].
  unfold capture_all in *. simpl. rewrite IH.
  unfold CaptureException. by destruct (ex_ptr_ h).
Qed.

(** The slot after a run of calls: what it held, or else the first
    non-null exception offered. *)
Lemma capture_all_first_non_null curs h :
  ex_ptr_ (capture_all curs h) = first_non_null (ex_ptr_ h :: curs).
Proof.
  revert h. induction curs as [|cur curs IH]; intros h.
  - simpl. by destruct (ex_ptr_ h).
  - change (capture_all (cur :: curs) h)
      with (capture_all curs (CaptureException cur h)).
    rewrite IH. simpl. unfold CaptureException.
    destruct (ex_ptr_ h) eqn:E; simpl; by rewrite ?E.
Qed.

Lemma capture_all_app l1 l2 h :
  capture_all (l1 ++ l2) h = capture_all l2 (capture_all l1 h).
Proof. unfold capture_all. by rewrite fold_left_app. Qed.

(** *** Calls that interleave *)

(** One thread alone runs the five statements of the call and leaves the
    helper as [CaptureException] says. *)
Lemma CaptureException_alone cur h :
  lock_ h = None ->
  run_schedule (repeat 0%nat 5) (enter_all [cur] h) =
    Config (CaptureException cur h) [MkCall Returned cur].
Proof.
  destruct h as [[e|] l]; simpl; intros ->; reflexivity.
Qed.

(** Two threads that both see the slot empty: the one that takes the
    mutex first has its signal kept, the other finds the slot taken. *)
Example CaptureException_race :
  let X := StdException "X" in
  let Y := OtherException 7 in
  run_schedule [0; 1; 1; 0; 1; 1; 1; 0; 0; 0]%nat
    (enter_all [Some X; Some Y] ThreadExceptionHelper_new) =
  Config (Helper (Some Y) None)
    [MkCall Returned (Some X); MkCall Returned (Some Y)].
Proof. reflexivity. Qed.

(** A step of thread [tid], taken apart: its call [c] before, the call
    [c'] and the helper [h'] after. *)
Ltac open_step Hstep c c' h' Hc Hs :=
  unfold step in Hstep;
  match type of Hstep with
  | context [calls ?cfg !! ?tid] =>
      destruct (calls cfg !! tid) as [c|] eqn:Hc; [|discriminate Hstep];
      destruct (step_call tid c (helper cfg)) as [[c' h']|] eqn:Hs;
        [|discriminate Hstep];
      injection Hstep as <-
  end.

(** The statement a call is at, case by case. *)
Ltac at_each_pc Hs c :=
  unfold step_call in Hs;
  let l := fresh "l" in
  let cur := fresh "cur" in
  destruct c as [l cur]; simpl in *; destruct l; simpl in *.

Lemma enter_all_inv curs h : mutex_inv (enter_all curs h).
Proof.
  intros tid c Hc. unfold enter_all in Hc. simpl in Hc.
  rewrite list_lookup_fmap in Hc.
  destruct (curs !! tid); [|done]. injection Hc as <-. done.
Qed.

Lemma step_inv tid cfg cfg' :
  mutex_inv cfg -> step tid cfg = Some cfg' -> mutex_inv cfg'.
Proof.
  intros Hinv Hstep. open_step Hstep c c' h' Hc Hs.
  pose proof (lookup_lt_Some _ _ _ Hc) as Hlt.
  destruct (Hinv tid c Hc) as [Hown Hnull].
  (* no other call is inside the critical section when this one is *)
  assert (Hothers : forall t d, t <> tid -> calls cfg !! t = Some d ->
            holds_lock (at_ c) = true -> holds_lock (at_ d) = false).
  { intros t d Hne Hd Hin. destruct (holds_lock (at_ d)) eqn:Hdl; [|done].
    destruct (Hinv t d Hd) as [Hd' _].
    specialize (Hown Hin). specialize (Hd' Hdl). congruence. }
  (* and none is when the mutex is free *)
  assert (Hfree : forall t d, calls cfg !! t = Some d ->
            lock_ (helper cfg) = None -> holds_lock (at_ d) = false).
  { intros t d Hd Hl. destruct (holds_lock (at_ d)) eqn:Hdl; [|done].
    destruct (Hinv t d Hd) as [Hd' _]. specialize (Hd' Hdl). congruence. }
  intros t d Hd. simpl in Hd |- *.
  destruct (decide (t = tid)) as [->|Hne].
  - rewrite list_lookup_insert_eq in Hd by done. injection Hd as <-.
    at_each_pc Hs c.
    + injection Hs as <- <-. by destruct (non_null _).
    + destruct (lock_ (helper cfg)); [done|]. by injection Hs as <- <-.
    + injection Hs as <- <-.
      destruct (ex_ptr_ (helper cfg)) eqn:E; simpl; split; auto; done.
    + injection Hs as <- <-. simpl. split; [auto|done].
    + injection Hs as <- <-. simpl. split; done.
    + done.
  - rewrite list_lookup_insert_ne in Hd by done.
    destruct (Hinv t d Hd) as [Hdown Hdnull].
    at_each_pc Hs c.
    + injection Hs as <- <-. done.
    + destruct (lock_ (helper cfg)) eqn:El; [done|]. injection Hs as <- <-.
      simpl. pose proof (Hfree t d Hd eq_refl) as Hf.
      split; [by rewrite Hf|]. intros Hat. rewrite Hat in Hf. done.
    + injection Hs as <- <-. done.
    + injection Hs as <- <-. simpl.
      pose proof (Hothers t d Hne Hd eq_refl) as Hf.
      split; [by rewrite Hf|]. intros Hat. rewrite Hat in Hf. done.
    + injection Hs as <- <-. simpl.
      pose proof (Hothers t d Hne Hd eq_refl) as Hf.
      split; [by rewrite Hf|]. auto.
    + done.
Qed.

(** A step never replaces a signal the slot holds. *)
Lemma step_keeps_signal tid cfg cfg' e :
  mutex_inv cfg -> ex_ptr_ (helper cfg) = Some e ->
  step tid cfg = Some cfg' -> ex_ptr_ (helper cfg') = Some e.
Proof.
  intros Hinv He Hstep. open_step Hstep c c' h' Hc Hs. simpl.
  destruct (Hinv tid c Hc) as [_ Hnull].
  at_each_pc Hs c; try (by injection Hs as <- <-).
  - destruct (lock_ (helper cfg)); [done|]. by injection Hs as <- <-.
  - specialize (Hnull eq_refl). congruence.
  - done.
Qed.

(** A step leaves every call the exception it has in flight. *)
Lemma step_currents tid cfg cfg' :
  step tid cfg = Some cfg' ->
  current_exception <$> calls cfg' = current_exception <$> calls cfg.
Proof.
  intros Hstep. open_step Hstep c c' h' Hc Hs. simpl.
  rewrite list_fmap_insert.
  apply list_insert_id. rewrite list_lookup_fmap, Hc. simpl. f_equal.
  at_each_pc Hs c; try (by injection Hs as <- <-).
  - injection Hs as <- <-. by destruct (non_null _).
  - destruct (lock_ (helper cfg)); [done|]. by injection Hs as <- <-.
  - injection Hs as <- <-. by destruct (non_null _).
  - done.
Qed.

(** What a step leaves in the slot was there before or is the exception
    in flight of one of the calls. *)
Lemma step_provenance tid cfg cfg' :
  step tid cfg = Some cfg' ->
  ex_ptr_ (helper cfg') = ex_ptr_ (helper cfg) \/
  ex_ptr_ (helper cfg') ∈ (current_exception <$> calls cfg).
Proof.
  intros Hstep. open_step Hstep c c' h' Hc Hs. simpl.
  at_each_pc Hs c; try (left; by injection Hs as <- <-).
  - destruct (lock_ (helper cfg)); [done|]. left. by injection Hs as <- <-.
  - right. injection Hs as <- <-. simpl.
    apply list_elem_of_lookup. exists tid.
    by rewrite list_lookup_fmap, Hc.
  - done.
Qed.

Lemma step_past_inv tid cfg cfg' :
  mutex_inv cfg -> past_inv cfg -> step tid cfg = Some cfg' -> past_inv cfg'.
Proof.
  intros Hinv Hpast Hstep.
  assert (Hstable : non_null (ex_ptr_ (helper cfg)) = true ->
                    non_null (ex_ptr_ (helper cfg')) = true).
  { destruct (ex_ptr_ (helper cfg)) as [e|] eqn:He; [|done]. intros _.
    by rewrite (step_keeps_signal tid cfg cfg' e). }
  open_step Hstep c c' h' Hc Hs.
  pose proof (lookup_lt_Some _ _ _ Hc) as Hlt.
  intros t d Hd Hp Hcur. simpl in Hd.
  destruct (decide (t = tid)) as [->|Hne].
  - rewrite list_lookup_insert_eq in Hd by done. injection Hd as <-.
    specialize (Hpast tid c Hc).
    at_each_pc Hs c.
    + injection Hs as <- <-.
      destruct (non_null (ex_ptr_ (helper cfg))) eqn:E; done.
    + destruct (lock_ (helper cfg)); [done|]. by injection Hs as <- <-.
    + injection Hs as <- <-.
      destruct (non_null (ex_ptr_ (helper cfg))) eqn:E; done.
    + by injection Hs as <- <-.
    + injection Hs as <- <-. simpl in *. auto.
    + done.
  - rewrite list_lookup_insert_ne in Hd by done.
    apply Hstable. by apply (Hpast t d).
Qed.

Create HintDb interleaving.
#[local] Hint Resolve enter_all_inv step_inv step_keeps_signal step_past_inv
  : interleaving.

Lemma run_schedule_inv sched cfg :
  mutex_inv cfg -> mutex_inv (run_schedule sched cfg).
Proof.
  revert cfg. induction sched as [|tid sched IH]; intros cfg Hinv; [done|].
  simpl. destruct (step tid cfg) eqn:E; eauto with interleaving.
Qed.

Lemma run_schedule_keeps_signal sched cfg e :
  mutex_inv cfg -> ex_ptr_ (helper cfg) = Some e ->
  ex_ptr_ (helper (run_schedule sched cfg)) = Some e.
Proof.
  revert cfg. induction sched as [|tid sched IH]; intros cfg Hinv He; [done|].
  simpl. destruct (step tid cfg) eqn:E; eauto with interleaving.
Qed.

Lemma run_schedule_past_inv sched cfg :
  mutex_inv cfg -> past_inv cfg -> past_inv (run_schedule sched cfg).
Proof.
  revert cfg. induction sched as [|tid sched IH]; intros cfg Hinv Hp; [done|].
  simpl. destruct (step tid cfg) eqn:E; eauto with interleaving.
Qed.

Lemma run_schedule_currents sched cfg :
  current_exception <$> calls (run_schedule sched cfg) =
  current_exception <$> calls cfg.
Proof.
  revert cfg. induction sched as [|tid sched IH]; intros cfg; [done|].
  simpl. destruct (step tid cfg) eqn:E; [|by apply IH].
  rewrite IH. by apply (step_currents tid).
Qed.

Lemma run_schedule_provenance sched cfg :
  ex_ptr_ (helper (run_schedule sched cfg)) = ex_ptr_ (helper cfg) \/
  ex_ptr_ (helper (run_schedule sched cfg)) ∈
    (current_exception <$> calls cfg).
Proof.
  revert cfg. induction sched as [|tid sched IH]; intros cfg; [by left|].
  simpl. destruct (step tid cfg) as [cfg'|] eqn:E; [|apply IH].
  destruct (IH cfg') as [H|H].
  - rewrite H. by apply (step_provenance tid).
  - right. by rewrite <- (step_currents tid cfg cfg').
Qed.

(** The same for the step relation: however the threads take their
    turns, the invariant of the mutex and a held signal are kept. *)
Lemma may_step_rtc_keeps_signal cfg cfg' e :
  rtc may_step cfg cfg' ->
  mutex_inv cfg -> ex_ptr_ (helper cfg) = Some e ->
  mutex_inv cfg' /\ ex_ptr_ (helper cfg') = Some e.
Proof.
  induction 1 as [cfg | cfg cfg1 cfg2 [tid Hstep] _ IH]; [done|].
  intros Hinv He. apply IH; eauto with interleaving.
Qed.

(** Threads that call [CaptureException] on a new helper, in any
    interleaving, once all have returned: the slot holds the exception of
    one of them, and it is null only if none had an exception in
    flight. *)
Lemma CaptureException_concurrent_outcome curs sched :
  let final := run_schedule sched (enter_all curs ThreadExceptionHelper_new) in
  all_returned final ->
  match ex_ptr_ (helper final) with
  | Some e => Some e ∈ curs
  | None => Forall (fun cur => cur = None) curs
  end.
Proof.
  intros final Hret.
  assert (Hcur : current_exception <$> calls final = curs).
  { subst final. rewrite run_schedule_currents. simpl.
    rewrite <- list_fmap_compose. apply list_fmap_id. }
  assert (Hpast : past_inv final).
  { apply run_schedule_past_inv; [apply enter_all_inv|].
    intros tid c Hc. simpl in Hc. rewrite list_lookup_fmap in Hc.
    destruct (curs !! tid); [|done]. by injection Hc as <-. }
  destruct (ex_ptr_ (helper final)) as [e|] eqn:He.
  - destruct (run_schedule_provenance sched
                (enter_all curs ThreadExceptionHelper_new)) as [H|H];
      fold final in H; rewrite He in H; [done|].
    simpl in H. rewrite <- list_fmap_compose in H.
    by rewrite list_fmap_id in H.
  - rewrite <- Hcur. apply Forall_fmap, Forall_lookup. intros tid c Hc.
    simpl. destruct (current_exception c) as [e|] eqn:Ec; [|done].
    exfalso. specialize (Hpast tid c Hc).
    rewrite (proj1 (Forall_lookup _ _) Hret tid c Hc) in Hpast.
    rewrite Ec, He in Hpast. by specialize (Hpast eq_refl eq_refl).
Qed.

(** C2: when the slot holds a signal, a call of CaptureException changes
    nothing, and neither does any run of calls, made one after the other
    or by threads whose statements interleave in any order; and when the
    helper came from a new one by a run of calls, the signal it holds is
    the first non-null one that run offered. *)
Theorem CaptureException_first_wins
    (h : ThreadExceptionHelper) (e : exception) :
  ex_ptr_ h = Some e ->
  (forall cur, CaptureException cur h = h) /\
  (forall curs, capture_all curs h = h) /\
  (forall curs sched,
     ex_ptr_ (helper (run_schedule sched (enter_all curs h))) = Some e) /\
  (forall before,
     h = capture_all before ThreadExceptionHelper_new ->
     first_non_null before = Some e).
Proof.
  intros He. repeat split.
  - intros cur. by apply (CaptureException_held cur h e).
  - intros curs. by apply (capture_all_held curs h e).
  - intros curs sched. apply run_schedule_keeps_signal; [|done].
    apply enter_all_inv.
  - intros before ->. by rewrite capture_all_first_non_null in He.
Qed.

Lemma CaptureException_first_wins_witness :
  let X := StdException "X" in
  let Y := OtherException 7 in
  let h := capture_all [None; Some X] ThreadExceptionHelper_new in
  ex_ptr_ h = Some X /\
  capture_all [Some Y; None; Some X] h = h /\
  ex_ptr_ (helper (run_schedule [1; 0; 1; 1; 0; 0; 1; 1; 0; 0]%nat
                     (enter_all [Some Y; Some Y] h))) = Some X.
Proof.
  intros X Y h.
  assert (H : ex_ptr_ h = Some X) by reflexivity.
  destruct (CaptureException_first_wins h X H) as (_ & Hall & Hrun & _).
  split; [exact H|]. split; [apply Hall | apply Hrun].
Defined.

(** *** ReThrow, the destructor and the macros *)

Lemma OMP_LOOP_EX_helper body r :
  omp_except_helper (snd (OMP_LOOP_EX body r)) =
    match body with
    | Normal => omp_except_helper r
    | Throw e => CaptureException (Some e) (omp_except_helper r)
    end.
Proof. by destruct body as [|[]]. Qed.

(** The handlers of [OMP_LOOP_EX_END()] catch what the body throws. *)
Lemma OMP_LOOP_EX_normal body r : fst (OMP_LOOP_EX body r) = Normal.
Proof. by destruct body as [|[]]. Qed.

(** An exception derived from [std::exception] is logged, captured or
    not. *)
Lemma OMP_LOOP_EX_warns what r :
  warnings (snd (OMP_LOOP_EX (Throw (StdException what)) r)) =
    warnings r ++ [what].
Proof. reflexivity. Qed.

Lemma run_bodies_slot bodies r :
  ex_ptr_ (omp_except_helper (run_bodies bodies r)) =
    match ex_ptr_ (omp_except_helper r) with
    | Some e => Some e
    | None =>
        match first_throw bodies with Throw e => Some e | Normal => None end
    end.
Proof.
  revert r. induction bodies as [|body bodies IH]; intros r.
  - simpl. by destruct (ex_ptr_ _).
  - change (run_bodies (body :: bodies) r)
      with (run_bodies bodies (snd (OMP_LOOP_EX body r))).
    rewrite IH, OMP_LOOP_EX_helper.
    destruct body as [|e]; simpl; [done|].
    unfold CaptureException.
    destruct (ex_ptr_ (omp_except_helper r)) eqn:E; simpl; by rewrite ?E.
Qed.

(** C3: ReThrow on a helper whose slot is empty returns and changes
    nothing; on a helper that holds a signal it throws that signal. After
    any run of calls of CaptureException on a new helper, and after any
    loop guarded by the macros, what it throws is the first signal that
    was offered, and it throws nothing when there was none. *)
Theorem ReThrow_first_captured
    (h : ThreadExceptionHelper) (curs : list exception_ptr)
    (bodies : list completion) (log : list string) :
  (ex_ptr_ h = None -> ReThrow h = (Normal, h)) /\
  (forall e, ex_ptr_ h = Some e -> fst (ReThrow h) = Throw e) /\
  fst (ReThrow (capture_all curs ThreadExceptionHelper_new)) =
    match first_non_null curs with Some e => Throw e | None => Normal end /\
  fst (OMP_THROW_EX (run_bodies bodies (OMP_INIT_EX log))) =
    first_throw bodies.
Proof.
  repeat split.
  - unfold ReThrow. by intros ->.
  - unfold ReThrow. by intros e ->.
  - unfold ReThrow. rewrite capture_all_first_non_null. simpl.
    by destruct (first_non_null curs).
  - unfold OMP_THROW_EX, ReThrow. rewrite run_bodies_slot. simpl.
    by destruct (first_throw bodies).
Qed.

Lemma ThreadExceptionHelper_delete_held h e :
  ex_ptr_ h = Some e -> ThreadExceptionHelper_delete h = Terminates e.
Proof. intros He. unfold ThreadExceptionHelper_delete, ReThrow. by rewrite He. Qed.

Lemma ThreadExceptionHelper_delete_empty h :
  ex_ptr_ h = None -> ThreadExceptionHelper_delete h = Returns.
Proof. intros He. unfold ThreadExceptionHelper_delete, ReThrow. by rewrite He. Qed.




(** C5, at the input where the code leaves the claim: a helper is made,
    one body throws X and the handler captures it, and the scope ends
    without a drain. The destructor runs ReThrow, which throws X inside
    it; the destructor is noexcept, so X does not reach the caller: the
    program is ended by std::terminate. The same happens at the end of
    the scope after OMP_THROW_EX() has thrown X, since the slot still
    holds it. *)
Theorem destructor_terminates :
  let X := StdException "X" in
  let r := snd (OMP_LOOP_EX (Throw X) (OMP_INIT_EX [])) in
  ex_ptr_ (omp_except_helper r) = Some X /\
  fst (ReThrow (omp_except_helper r)) = Throw X /\
  region_exit r = Terminates X /\
  fst (OMP_THROW_EX r) = Throw X /\
  region_exit (snd (OMP_THROW_EX r)) = Terminates X.
Proof. vm_compute. repeat split. Qed.

(** C10: a call of CaptureException on an empty helper with no exception
    in flight stores the null pointer: ReThrow and the destructor then
    throw nothing, and a later call with an exception in flight stores
    that exception. *)
Theorem CaptureException_nothing_in_flight
    (h : ThreadExceptionHelper) (e : exception) :
  ex_ptr_ h = None ->
  let h' := CaptureException nullptr h in
  ex_ptr_ h' = nullptr /\
  ReThrow h' = (Normal, h') /\
  ThreadExceptionHelper_delete h' = Returns /\
  ex_ptr_ (CaptureException (Some e) h') = Some e /\
  fst (ReThrow (CaptureException (Some e) h')) = Throw e.
Proof.
  intros He h'. subst h'.
  unfold ThreadExceptionHelper_delete, ReThrow, CaptureException.
  rewrite He. simpl. done.
Qed.

Lemma CaptureException_nothing_in_flight_witness :
  let X := StdException "X" in
  let h' := CaptureException nullptr ThreadExceptionHelper_new in
  ex_ptr_ ThreadExceptionHelper_new = None /\
  ReThrow h' = (Normal, h') /\
  ex_ptr_ (CaptureException (Some X) h') = Some X.
Proof.
  intros X h'.
  destruct (CaptureException_nothing_in_flight ThreadExceptionHelper_new X
              eq_refl) as (_ & Hre & _ & Hcap & _).
  split; [reflexivity|]. split; [exact Hre | exact Hcap].
Defined.

(** * The build without OpenMP *)

(** C7: without OpenMP the thread-count queries are the constants 1, 1
    and 1, the thread number is 0, the two setters return without any
    effect, and the four macros expand to nothing: a guarded body ends
    the way the body itself ends, and OMP_THROW_EX() falls through. *)
Theorem NoOpenMP_single_thread
    (W : Type) (w : W) (n : Z) (body : W -> completion * W) :
  NoOpenMP.omp_get_num_threads w = (1, w) /\
  NoOpenMP.omp_get_max_threads w = (1, w) /\
  NoOpenMP.OMP_NUM_THREADS w = (1, w) /\
  NoOpenMP.omp_get_thread_num w = (0, w) /\
  NoOpenMP.omp_set_num_threads n w = (tt, w) /\
  NoOpenMP.OMP_SET_NUM_THREADS n w = (tt, w) /\
  NoOpenMP.OMP_INIT_EX w = (Normal, w) /\
  NoOpenMP.OMP_LOOP_EX body w = body w /\
  NoOpenMP.OMP_THROW_EX w = (Normal, w) /\
  NoOpenMP.OMP_THROW_EX (snd (NoOpenMP.OMP_LOOP_EX body w)) =
    (Normal, snd (body w)).
Proof. repeat split. Qed.

(** * More on the environment override *)

Lemma skip_space_all_space ws s :
  all_space ws = true -> skip_space (ws +:+ s) = skip_space s.
Proof.
  induction ws as [|c ws IH]; simpl; [done|].
  intros [Hc Hws]%andb_true_iff. rewrite Hc. by apply IH.
Qed.

Lemma read_digits_stop acc s :
  starts_with_digit s = false -> read_digits acc s = (acc, s).
Proof.
  destruct s as [|c s]; simpl; [done|].
  destruct (digit_value c); [|done].
  rewrite bool_decide_eq_false. intros []. by eexists.
Qed.

Lemma read_digits_numeral_app acc ds suffix :
  Forall is_digit ds -> starts_with_digit suffix = false ->
  read_digits acc (numeral ds +:+ suffix) =
    (fold_left (fun a d => 10 * a + d) ds acc, suffix).
Proof.
  intros Hds Hsuffix. revert acc.
  induction Hds as [|d ds Hd _ IH]; intros acc; simpl.
  - by apply read_digits_stop.
  - by rewrite digit_value_digit_char.
Qed.

Lemma skip_space_digit_char d s :
  is_digit d ->
  skip_space (String (digit_char d) s) = String (digit_char d) s.
Proof. intros Hd. simpl. by rewrite isspace_digit_char. Qed.

(** [strtol] on white space, an optional plus, a numeral and text that
    does not go on with a digit. *)
Lemma strtol10_lenient dm ws (plus : bool) d ds suffix :
  all_space ws = true -> Forall is_digit (d :: ds) ->
  starts_with_digit suffix = false ->
  strtol10 dm
    (ws +:+ (if plus then "+" else "") +:+ numeral (d :: ds) +:+ suffix) =
    (Z.min (LONG_MAX dm) (numeral_value (d :: ds)), suffix).
Proof.
  intros Hws Hds Hsuffix. pose proof (Forall_inv Hds) as Hd.
  assert (Hskip :
    skip_space
      (ws +:+ (if plus then "+" else "") +:+ numeral (d :: ds) +:+ suffix) =
    (if plus then "+" else "") +:+ numeral (d :: ds) +:+ suffix).
  { rewrite skip_space_all_space by done.
    destruct plus; [done|]. simpl. by rewrite isspace_digit_char. }
  assert (Hsign :
    read_sign ((if plus then "+" else "") +:+ numeral (d :: ds) +:+ suffix) =
    (false, numeral (d :: ds) +:+ suffix)).
  { destruct plus; [done|]. simpl. by apply read_sign_digit_char. }
  unfold strtol10. rewrite Hskip, Hsign.
  rewrite read_digits_numeral_app by done.
  simpl. by rewrite digit_value_digit_char.
Qed.

(** X1: LGBM_DEFAULT_NUM_THREADS calls getenv once and does nothing else
    to the process, and its result is the sentinel -1 or a count from 1
    to INT32_MAX: never 0 and never another negative number. *)
Theorem LGBM_DEFAULT_NUM_THREADS_sentinel_or_count (p : process) :
  exists v,
    LGBM_DEFAULT_NUM_THREADS p =
      (v, with_trace (trace p ++ [EvGetenv "LGBM_DEFAULT_NUM_THREADS"]) p) /\
    (v = -1 \/ 1 <= v <= INT32_MAX).
Proof.
  exists (eval LGBM_DEFAULT_NUM_THREADS p). split.
  - apply LGBM_DEFAULT_NUM_THREADS_run.
  - apply LGBM_DEFAULT_NUM_THREADS_cases.
Qed.

(** X2: the override is read leniently. White space before the number, a
    plus sign, and any text after the digits are ignored: when the digits
    spell a number from 1 to INT32_MAX, that number is the override. *)
Theorem LGBM_DEFAULT_NUM_THREADS_lenient
    (p : process) (ws : string) (plus : bool) (d : Z) (ds : list Z)
    (suffix : string) :
  environ p !! "LGBM_DEFAULT_NUM_THREADS" =
    Some (ws +:+ (if plus then "+" else "") +:+ numeral (d :: ds)
          +:+ suffix) ->
  all_space ws = true ->
  Forall is_digit (d :: ds) ->
  starts_with_digit suffix = false ->
  0 < numeral_value (d :: ds) <= INT32_MAX ->
  eval LGBM_DEFAULT_NUM_THREADS p = numeral_value (d :: ds).
Proof.
  intros Henv Hws Hds Hsuffix Hv.
  rewrite LGBM_DEFAULT_NUM_THREADS_eval, Henv.
  rewrite strtol10_lenient by done. unfold fst.
  pose proof (LONG_bounds (abi p)) as (_ & _ & ?).
  rewrite Z.min_r by lia.
  rewrite to_int32_small by (unfold INT32_MIN; lia).
  destruct (Z.gtb_spec (numeral_value (d :: ds)) 0); [done | lia].
Qed.

Lemma LGBM_DEFAULT_NUM_THREADS_lenient_witness :
  let p := fresh_process LLP64
             {["LGBM_DEFAULT_NUM_THREADS" := "  +16 threads"]}
             (OmpRuntime 8 (fun n => n)) in
  eval LGBM_DEFAULT_NUM_THREADS p = 16.
Proof.
  intros p.
  apply (LGBM_DEFAULT_NUM_THREADS_lenient p "  " true 1 [6] " threads").
  - reflexivity.
  - reflexivity.
  - repeat constructor; unfold is_digit; lia.
  - reflexivity.
  - vm_compute. split; [reflexivity | discriminate].
Defined.

(** X3: a numeral too large for a long. strtol answers LONG_MAX; where
    long has 64 bits the narrowing to int32_t makes that -1, and the
    override is ignored; where long has 32 bits it is INT32_MAX, and that
    is the override. *)
Theorem LGBM_DEFAULT_NUM_THREADS_out_of_range
    (p : process) (d : Z) (ds : list Z) :
  environ p !! "LGBM_DEFAULT_NUM_THREADS" = Some (numeral (d :: ds)) ->
  Forall is_digit (d :: ds) ->
  LONG_MAX (abi p) <= numeral_value (d :: ds) ->
  eval LGBM_DEFAULT_NUM_THREADS p =
    match abi p with LP64 => -1 | LLP64 => INT32_MAX end.
Proof.
  intros Henv Hds Hv. rewrite LGBM_DEFAULT_NUM_THREADS_eval, Henv.
  rewrite strtol10_numeral by done. unfold fst.
  rewrite Z.min_l by lia. by destruct (abi p).
Qed.

Lemma LGBM_DEFAULT_NUM_THREADS_out_of_range_witness :
  let ds := [9; 2; 2; 3; 3; 7; 2; 0; 3; 6; 8; 5; 4; 7; 7; 5; 8; 0; 7] in
  let p := fresh_process LP64 {["LGBM_DEFAULT_NUM_THREADS" := numeral ds]}
             (OmpRuntime 8 (fun n => n)) in
  numeral ds = "9223372036854775807"%string /\
  eval LGBM_DEFAULT_NUM_THREADS p = -1.
Proof.
  intros ds p. split; [reflexivity|].
  apply (LGBM_DEFAULT_NUM_THREADS_out_of_range p 9
           [2; 2; 3; 3; 7; 2; 0; 3; 6; 8; 5; 4; 7; 7; 5; 8; 0; 7]).
  - reflexivity.
  - repeat constructor; unfold is_digit; lia.
  - vm_compute. discriminate.
Defined.

(** * More on the resolver *)

Lemma parallel_count_app t1 t2 :
  parallel_count (t1 ++ t2) = (parallel_count t1 + parallel_count t2)%nat.
Proof.
  induction t1 as [|[] t1 IH]; simpl; [done| | |]; rewrite ?IH; lia.
Qed.

Lemma run_action_no_parallel a p d :
  default_omp_num_threads p = Some d ->
  parallel_count (trace (run_action a p)) = parallel_count (trace p).
Proof.
  intros H. destruct a as [r| | |n]; simpl; try done.
  - rewrite exec_OMP_SET_NUM_THREADS. simpl. rewrite H.
    rewrite !parallel_count_app.
    destruct (lgbm_default_num_threads p); simpl; lia.
  - unfold exec, omp_set_num_threads, bind, emit. simpl.
    rewrite parallel_count_app. simpl. lia.
Qed.

Lemma run_actions_no_parallel l p d :
  default_omp_num_threads p = Some d ->
  parallel_count (trace (run_actions l p)) = parallel_count (trace p).
Proof.
  revert p. induction l as [|a l IH]; intros p H; [done|].
  simpl. rewrite IH by (by apply run_action_keeps_default).
  by eapply run_action_no_parallel.
Qed.

(** A run reads the variable and probes the runtime only to fill a static
    that is still empty. *)
Lemma run_actions_reads l p name :
  (getenv_count name (trace (run_actions l p)) <=
     getenv_count name (trace p) +
     (if lgbm_default_num_threads p is Some _ then 0 else 1))%nat /\
  (parallel_count (trace (run_actions l p)) <=
     parallel_count (trace p) +
     (if default_omp_num_threads p is Some _ then 0 else 1))%nat.
Proof.
  revert p. induction l as [|a l IH]; intros p; [simpl; lia|].
  destruct a as [r|n v|n|n].
  - change (run_actions (Call r :: l) p)
      with (run_actions l (exec (OMP_SET_NUM_THREADS r) p)).
    set (p1 := exec (OMP_SET_NUM_THREADS r) p).
    assert (Ho : lgbm_default_num_threads p1 = Some (override_result p))
      by (subst p1; by rewrite exec_OMP_SET_NUM_THREADS).
    assert (Hd : default_omp_num_threads p1 = Some (probe_result p))
      by (subst p1; by rewrite exec_OMP_SET_NUM_THREADS).
    rewrite (run_actions_no_getenv l p1 _ name Ho).
    rewrite (run_actions_no_parallel l p1 _ Hd).
    subst p1. rewrite exec_OMP_SET_NUM_THREADS. simpl.
    rewrite !getenv_count_app, !parallel_count_app.
    destruct (default_omp_num_threads p), (lgbm_default_num_threads p);
      simpl; try case_bool_decide; lia.
  - apply (IH (setenv n v p)).
  - apply (IH (unsetenv n p)).
  - destruct (IH (exec (omp_set_num_threads n) p)) as [H1 H2].
    change (run_actions (RawSetNumThreads n :: l) p)
      with (run_actions l (exec (omp_set_num_threads n) p)).
    unfold exec, omp_set_num_threads, bind, emit in *. simpl in *.
    rewrite getenv_count_app, parallel_count_app in *. simpl in *. lia.
Qed.

(** With both statics filled, each call of a run is decided by them and
    by its own request. *)
Lemma calls_applied_cached l p v d :
  lgbm_default_num_threads p = Some v ->
  default_omp_num_threads p = Some d ->
  calls_applied l p =
    (fun r => if v >? 0 then v else if r >? 0 then r else d) <$> requests l.
Proof.
  revert p. induction l as [|a l IH]; intros p Hv Hd; [done|].
  rewrite calls_applied_cons.
  rewrite (IH _ (run_action_keeps_override p v Hv a)
             (run_action_keeps_default a p d Hd)).
  destruct a as [r| | |n]; try done.
  simpl. f_equal. unfold active_num_threads.
  rewrite exec_OMP_SET_NUM_THREADS. simpl.
  unfold resolved, override_result, probe_result. by rewrite Hv, Hd.
Qed.

Lemma calls_applied_from_first r l p :
  calls_applied (Call r :: l) p =
    (fun q => if override_result p >? 0 then override_result p
              else if q >? 0 then q else probe_result p)
    <$> (r :: requests l).
Proof.
  simpl. set (p1 := exec (OMP_SET_NUM_THREADS r) p).
  rewrite (calls_applied_cached l p1 (override_result p) (probe_result p))
    by (subst p1; by rewrite exec_OMP_SET_NUM_THREADS).
  f_equal. subst p1. unfold active_num_threads.
  by rewrite exec_OMP_SET_NUM_THREADS.
Qed.

(** X4: whatever calls of the resolver, changes of the environment and
    direct calls of omp_set_num_threads a process makes, the environment
    variable is read at most once and the probing parallel region runs at
    most once, and neither happens when its static already holds a
    value. *)
Theorem statics_filled_at_most_once
    (l : list action) (p : process) (name : string) :
  (getenv_count name (trace (run_actions l p)) <=
     getenv_count name (trace p) +
     (if lgbm_default_num_threads p is Some _ then 0 else 1))%nat /\
  (parallel_count (trace (run_actions l p)) <=
     parallel_count (trace p) +
     (if default_omp_num_threads p is Some _ then 0 else 1))%nat.
Proof. apply run_actions_reads. Qed.

(** X5: from its first call on, a process applies to every call the
    count that the override and the default of that first call decide
    together with the call's own request: the override when positive,
    else the request when positive, else the default. Nothing done
    between the calls (to the environment or to the runtime) changes
    that. *)
Theorem calls_decided_by_first_call
    (requested : Z) (l : list action) (p : process) :
  calls_applied (Call requested :: l) p =
    (fun r => if override_result p >? 0 then override_result p
              else if r >? 0 then r else probe_result p)
    <$> (requested :: requests l).
Proof. apply calls_applied_from_first. Qed.

(** X6: the default is the team size the runtime gives when the resolver
    is first called, not when the process starts: a direct
    omp_set_num_threads(k) before the first call makes the team size for
    k the cached default, for good. The probing region runs in that first
    call whether or not the override decides it. *)
Theorem default_is_probed_at_first_call
    (dm : data_model) (env : gmap string string) (rt : omp_runtime)
    (k requested : Z) (l : list action) :
  let p := fresh_process dm env rt in
  let p' := run_actions (RawSetNumThreads k :: Call requested :: l) p in
  default_omp_num_threads p' = Some (team_size rt k) /\
  parallel_count (trace p') = 1%nat /\
  default_omp_num_threads (run_actions (Call requested :: l) p) =
    Some (team_size rt (nthreads_var rt)).
Proof.
  intros p p'. split; [|split].
  - subst p'. simpl. apply run_actions_keeps_default.
    by rewrite exec_OMP_SET_NUM_THREADS.
  - subst p'. simpl.
    set (p0 := exec (omp_set_num_threads k) p).
    rewrite (run_actions_no_parallel l
               (exec (OMP_SET_NUM_THREADS requested) p0) (probe_result p0))
      by (by rewrite exec_OMP_SET_NUM_THREADS).
    by rewrite exec_OMP_SET_NUM_THREADS.
  - simpl. apply run_actions_keeps_default.
    by rewrite exec_OMP_SET_NUM_THREADS.
Qed.

(** X7: with an override that is absent, has no number or spells zero, or
    is a negative number that fits an int32_t (any negative number where
    long has 32 bits), every call of the process applies its own request
    when that is positive and the probed default otherwise. *)
Theorem malformed_override_falls_through
    (requested : Z) (l : list action) (p : process) :
  let val := environ p !! "LGBM_DEFAULT_NUM_THREADS" in
  lgbm_default_num_threads p = None ->
  classify val <> Positive ->
  (classify val = Negative ->
   abi p = LLP64 \/ forall s, val = Some s -> magnitude s <= 2 ^ 31) ->
  lgbm_default_num_threads (run_actions (Call requested :: l) p) =
    Some (-1) /\
  calls_applied (Call requested :: l) p =
    (fun r => if r >? 0 then r else probe_result p)
    <$> (requested :: requests l).
Proof.
  intros val Hnone Hclass Hfit.
  assert (Hov : override_result p = -1).
  { unfold override_result. rewrite Hnone.
    by apply LGBM_DEFAULT_NUM_THREADS_malformed. }
  split.
  - simpl. apply run_actions_keeps_override.
    rewrite exec_OMP_SET_NUM_THREADS. simpl. by rewrite Hov.
  - rewrite calls_applied_from_first, Hov. done.
Qed.

Lemma malformed_override_falls_through_witness :
  let p := fresh_process LP64 {["LGBM_DEFAULT_NUM_THREADS" := "-2"]}
             (OmpRuntime 8 (fun n => n)) in
  let l := [Call 0; Setenv "LGBM_DEFAULT_NUM_THREADS" "6"; Call 3;
            Call (-1)] in
  calls_applied (Call 4 :: l) p = [4; 8; 3; 8].
Proof.
  intros p l.
  apply (malformed_override_falls_through 4 l p).
  - reflexivity.
  - vm_compute. discriminate.
  - intros _. right. intros s [= <-]. vm_compute. discriminate.
Defined.

(** * More on calls that interleave *)

Lemma run_schedule_app s1 s2 cfg :
  run_schedule (s1 ++ s2) cfg = run_schedule s2 (run_schedule s1 cfg).
Proof.
  revert cfg. induction s1 as [|tid s1 IH]; intros cfg; [done|].
  simpl. apply IH.
Qed.

Lemma enter_all_lock_inv curs h : lock_ h = None -> lock_inv (enter_all curs h).
Proof. intros Hfree t Ht. simpl in Ht. congruence. Qed.

Lemma step_lock_inv tid cfg cfg' :
  lock_inv cfg -> step tid cfg = Some cfg' -> lock_inv cfg'.
Proof.
  intros Hlock Hstep. open_step Hstep c c' h' Hc Hs.
  pose proof (lookup_lt_Some _ _ _ Hc) as Hlt.
  (* the holder, when it is not the thread that moves, stays where it is *)
  assert (Hother : forall t, t <> tid -> lock_ (helper cfg) = Some t ->
            exists d, <[tid:=c']> (calls cfg) !! t = Some d /\
                      holds_lock (at_ d) = true).
  { intros t Hne Ht. destruct (Hlock t Ht) as (d & Hd & Hin).
    exists d. by rewrite list_lookup_insert_ne. }
  (* and when it is, it holds the lock before the step *)
  assert (Hself : lock_ (helper cfg) = Some tid -> holds_lock (at_ c) = true).
  { intros Ht. destruct (Hlock tid Ht) as (d & Hd & Hin). congruence. }
  intros t Ht. simpl in Ht |- *.
  at_each_pc Hs c.
  - injection Hs as <- <-.
    destruct (decide (t = tid)) as [->|Hne]; [|by apply Hother].
    by specialize (Hself Ht).
  - destruct (lock_ (helper cfg)); [done|]. injection Hs as <- <-.
    simpl in Ht. injection Ht as <-.
    eexists. by rewrite list_lookup_insert_eq.
  - injection Hs as <- <-.
    destruct (decide (t = tid)) as [->|Hne]; [|by apply Hother].
    eexists. rewrite list_lookup_insert_eq by done.
    split; [done|]. by destruct (non_null _).
  - injection Hs as <- <-. simpl in Ht.
    destruct (decide (t = tid)) as [->|Hne]; [|by apply Hother].
    eexists. by rewrite list_lookup_insert_eq.
  - injection Hs as <- <-. done.
  - done.
Qed.

#[local] Hint Resolve step_lock_inv : interleaving.

Lemma run_schedule_lock_inv sched cfg :
  lock_inv cfg -> lock_inv (run_schedule sched cfg).
Proof.
  revert cfg. induction sched as [|tid sched IH]; intros cfg Hinv; [done|].
  simpl. destruct (step tid cfg) eqn:E; eauto with interleaving.
Qed.

(** A call that has not returned can move, or the holder of the mutex
    can. *)
Lemma progress cfg t c :
  lock_inv cfg -> calls cfg !! t = Some c -> at_ c <> Returned ->
  exists tid cfg', step tid cfg = Some cfg'.
Proof.
  intros Hlock Hc Hat.
  assert (Hmoves : forall tid d, calls cfg !! tid = Some d ->
            at_ d <> Returned -> at_ d <> L70 ->
            exists cfg', step tid cfg = Some cfg').
  { intros tid d Hd H1 H2. unfold step, step_call. rewrite Hd.
    destruct (at_ d); try done; by eexists. }
  assert (H70 : at_ c = L70 \/ at_ c <> L70) by (destruct (at_ c); auto).
  destruct H70 as [H70|]; [|by exists t; eapply Hmoves].
  destruct (lock_ (helper cfg)) as [o|] eqn:Ho.
  - destruct (Hlock o Ho) as (d & Hd & Hin). exists o.
    apply (Hmoves o d Hd); by destruct (at_ d).
  - exists t. unfold step, step_call. rewrite Hc, H70, Ho. by eexists.
Qed.

Lemma sum_list_insert (f : call -> nat) (l : list call) i c c' :
  l !! i = Some c ->
  (sum_list (f <$> <[i:=c']> l) + f c = sum_list (f <$> l) + f c')%nat.
Proof.
  revert i. induction l as [|x l IH]; intros [|i] Hi; try done.
  - injection Hi as ->. cbn.
    generalize (sum_list (f <$> l)) (f c) (f c'). intros; lia.
  - specialize (IH i Hi).
    change (sum_list (f <$> <[S i:=c']> (x :: l)))
      with (f x + sum_list (f <$> <[i:=c']> l))%nat.
    change (sum_list (f <$> x :: l)) with (f x + sum_list (f <$> l))%nat.
    lia.
Qed.

Lemma step_call_steps_left tid c h c' h' :
  step_call tid c h = Some (c', h') ->
  (steps_left (at_ c') < steps_left (at_ c))%nat.
Proof.
  intros Hs. at_each_pc Hs c.
  - injection Hs as <- <-. destruct (non_null _); simpl; lia.
  - destruct (lock_ h); [done|]. injection Hs as <- <-. simpl. lia.
  - injection Hs as <- <-. destruct (non_null _); simpl; lia.
  - injection Hs as <- <-. simpl. lia.
  - injection Hs as <- <-. simpl. lia.
  - done.
Qed.

Lemma step_remaining tid cfg cfg' :
  step tid cfg = Some cfg' -> (remaining cfg' < remaining cfg)%nat.
Proof.
  intros Hstep. open_step Hstep c c' h' Hc Hs.
  unfold remaining. simpl.
  pose proof (sum_list_insert (steps_left ∘ at_) (calls cfg) tid c c' Hc) as H.
  pose proof (step_call_steps_left _ _ _ _ _ Hs). simpl in H. lia.
Qed.

Lemma remaining_enter_all curs h :
  remaining (enter_all curs h) = (5 * length curs)%nat.
Proof.
  unfold remaining. simpl. induction curs as [|cur curs IH]; [done|].
  change (sum_list (steps_left ∘ at_ <$> map (MkCall L69) (cur :: curs)))
    with (5 + sum_list (steps_left ∘ at_ <$> map (MkCall L69) curs))%nat.
  rewrite IH. simpl length. lia.
Qed.

Lemma steps_taken_remaining sched cfg :
  (steps_taken sched cfg + remaining (run_schedule sched cfg)
   <= remaining cfg)%nat.
Proof.
  revert cfg. induction sched as [|tid sched IH]; intros cfg; simpl; [lia|].
  destruct (step tid cfg) as [cfg'|] eqn:E; [|apply IH].
  pose proof (step_remaining tid cfg cfg' E). specialize (IH cfg'). lia.
Qed.

Lemma sum_steps_left_cons c l :
  sum_list (steps_left ∘ at_ <$> c :: l) =
    (steps_left (at_ c) + sum_list (steps_left ∘ at_ <$> l))%nat.
Proof. reflexivity. Qed.

Lemma remaining_zero cfg : remaining cfg = 0%nat -> all_returned cfg.
Proof.
  unfold remaining, all_returned.
  induction (calls cfg) as [|c l IH]; [by constructor|].
  rewrite sum_steps_left_cons. intros H.
  constructor; [|apply IH; lia].
  destruct (at_ c); simpl in H; (done || lia).
Qed.

Lemma remaining_positive cfg :
  remaining cfg <> 0%nat ->
  exists t c, calls cfg !! t = Some c /\ at_ c <> Returned.
Proof.
  unfold remaining.
  induction (calls cfg) as [|c l IH]; [done|].
  rewrite sum_steps_left_cons. intros H.
  assert (Hc : at_ c = Returned \/ at_ c <> Returned)
    by (destruct (at_ c); auto).
  destruct Hc as [Hc|Hc].
  - rewrite Hc in H. simpl in H. destruct (IH H) as (t & d & Hd & Hat).
    by exists (S t), d.
  - by exists 0%nat, c.
Qed.

(** From a configuration that keeps the invariant of the holder, the
    calls can always be brought to return. *)
Lemma completable n cfg :
  (remaining cfg <= n)%nat -> lock_inv cfg ->
  exists sched, all_returned (run_schedule sched cfg).
Proof.
  revert cfg. induction n as [|n IH]; intros cfg Hn Hlock.
  - exists []. simpl. apply remaining_zero. lia.
  - destruct (decide (remaining cfg = 0%nat)) as [H0|H0].
    { exists []. simpl. by apply remaining_zero. }
    destruct (remaining_positive cfg H0) as (t & c & Hc & Hat).
    destruct (progress cfg t c Hlock Hc Hat) as (tid & cfg' & Hstep).
    pose proof (step_remaining tid cfg cfg' Hstep).
    destruct (IH cfg') as [sched Hsched];
      [lia | by eapply step_lock_inv |].
    exists (tid :: sched). simpl. by rewrite Hstep.
Qed.

(** The statement of a call in the middle of the list of calls. *)
Lemma step_middle pre c rest h :
  step (length pre) (Config h (pre ++ c :: rest)) =
    match step_call (length pre) c h with
    | Some (c', h') => Some (Config h' (pre ++ c' :: rest))
    | None => None
    end.
Proof.
  unfold step. simpl. rewrite list_lookup_middle by done.
  destruct (step_call (length pre) c h) as [[c' h']|]; [|done].
  do 2 f_equal.
  replace (length pre) with (length pre + 0)%nat at 1 by lia.
  by rewrite insert_app_r.
Qed.

Lemma run_five pre cur rest h :
  lock_ h = None ->
  run_schedule (repeat (length pre) 5)
    (Config h (pre ++ MkCall L69 cur :: rest)) =
  Config (CaptureException cur h) (pre ++ MkCall Returned cur :: rest).
Proof.
  destruct h as [[e|] l]; simpl; intros ->;
    repeat (rewrite step_middle; simpl); reflexivity.
Qed.

Lemma run_one_by_one pre curs h :
  lock_ h = None ->
  run_schedule (one_by_one (length pre) (length curs))
    (Config h (pre ++ (MkCall L69 <$> curs))) =
  Config (capture_all curs h) (pre ++ (MkCall Returned <$> curs)).
Proof.
  revert pre h. induction curs as [|cur curs IH]; intros pre h Hfree; [done|].
  change (one_by_one (length pre) (length (cur :: curs)))
    with (repeat (length pre) 5 ++ one_by_one (S (length pre)) (length curs)).
  rewrite run_schedule_app, fmap_cons.
  rewrite run_five by done.
  assert (Hfree' : lock_ (CaptureException cur h) = None)
    by (unfold CaptureException; by destruct (ex_ptr_ h)).
  specialize (IH (pre ++ [MkCall Returned cur]) (CaptureException cur h)
                Hfree').
  rewrite length_app, <- !app_assoc in IH. simpl in IH.
  by rewrite Nat.add_1_r in IH.
Qed.

(** X8: mutual exclusion. However the calls of CaptureException
    interleave, two calls that are both between taking the mutex and
    giving it back are one and the same call, and that call is the
    recorded holder. *)
Theorem CaptureException_mutual_exclusion
    (curs : list exception_ptr) (h : ThreadExceptionHelper)
    (sched : list nat) (t1 t2 : nat) (c1 c2 : call) :
  let cfg := run_schedule sched (enter_all curs h) in
  calls cfg !! t1 = Some c1 -> calls cfg !! t2 = Some c2 ->
  holds_lock (at_ c1) = true -> holds_lock (at_ c2) = true ->
  t1 = t2 /\ lock_ (helper cfg) = Some t1.
Proof.
  intros cfg H1 H2 Hin1 Hin2.
  assert (Hinv : mutex_inv cfg) by apply run_schedule_inv, enter_all_inv.
  destruct (Hinv t1 c1 H1) as [Ho1 _]. destruct (Hinv t2 c2 H2) as [Ho2 _].
  specialize (Ho1 Hin1). specialize (Ho2 Hin2).
  split; [congruence | done].
Qed.

Lemma CaptureException_mutual_exclusion_witness :
  let cfg := run_schedule [0; 1; 1; 0; 1]%nat
               (enter_all [Some (StdException "X"); Some (OtherException 7)]
                  ThreadExceptionHelper_new) in
  calls cfg !! 1%nat = Some (MkCall L72 (Some (OtherException 7))) /\
  lock_ (helper cfg) = Some 1%nat.
Proof.
  intros cfg. split; [reflexivity|].
  apply (CaptureException_mutual_exclusion
           [Some (StdException "X"); Some (OtherException 7)]
           ThreadExceptionHelper_new [0; 1; 1; 0; 1]%nat 1%nat 1%nat
           (MkCall L72 (Some (OtherException 7)))
           (MkCall L72 (Some (OtherException 7))));
    reflexivity.
Defined.

(** X9: no deadlock. From whatever point the calls of CaptureException
    on a helper with a free mutex have reached, there are turns that
    bring every call to its return. *)
Theorem CaptureException_no_deadlock
    (curs : list exception_ptr) (h : ThreadExceptionHelper)
    (sched : list nat) :
  lock_ h = None ->
  exists sched',
    all_returned (run_schedule (sched ++ sched') (enter_all curs h)).
Proof.
  intros Hfree.
  destruct (completable (remaining (run_schedule sched (enter_all curs h)))
              (run_schedule sched (enter_all curs h))) as [sched' H].
  - lia.
  - by apply run_schedule_lock_inv, enter_all_lock_inv.
  - exists sched'. by rewrite run_schedule_app.
Qed.

Lemma CaptureException_no_deadlock_witness :
  lock_ ThreadExceptionHelper_new = None /\
  exists sched',
    all_returned
      (run_schedule ([0; 1; 1; 0; 1]%nat ++ sched')
         (enter_all [Some (StdException "X"); Some (OtherException 7)]
            ThreadExceptionHelper_new)).
Proof.
  split; [reflexivity|].
  apply (CaptureException_no_deadlock
           [Some (StdException "X"); Some (OtherException 7)]
           ThreadExceptionHelper_new [0; 1; 1; 0; 1]%nat).
  reflexivity.
Defined.

(** X10: no call spins. In any schedule the calls of n threads move at
    most 5 n times in all: each statement of CaptureException is run at
    most once per call. *)
Theorem CaptureException_steps_bounded
    (curs : list exception_ptr) (h : ThreadExceptionHelper)
    (sched : list nat) :
  (steps_taken sched (enter_all curs h) <= 5 * length curs)%nat.
Proof.
  pose proof (steps_taken_remaining sched (enter_all curs h)) as H.
  rewrite remaining_enter_all in H. lia.
Qed.

(** X11: the mutex is given back. When the calls on a helper whose mutex
    was free have all returned, the mutex is free again. *)
Theorem CaptureException_releases_lock
    (curs : list exception_ptr) (h : ThreadExceptionHelper)
    (sched : list nat) :
  lock_ h = None ->
  all_returned (run_schedule sched (enter_all curs h)) ->
  lock_ (helper (run_schedule sched (enter_all curs h))) = None.
Proof.
  intros Hfree Hret.
  pose proof (run_schedule_lock_inv sched _ (enter_all_lock_inv curs h Hfree))
    as Hlock.
  destruct (lock_ (helper (run_schedule sched (enter_all curs h))))
    as [t|] eqn:Ht; [|done].
  destruct (Hlock t Ht) as (c & Hc & Hin).
  rewrite (proj1 (Forall_lookup _ _) Hret t c Hc) in Hin. done.
Qed.

Lemma CaptureException_releases_lock_witness :
  let final :=
    run_schedule [0; 1; 1; 0; 1; 1; 1; 0; 0; 0]%nat
      (enter_all [Some (StdException "X"); Some (OtherException 7)]
         ThreadExceptionHelper_new) in
  all_returned final /\ lock_ (helper final) = None.
Proof.
  intros final.
  assert (H : all_returned final) by (repeat constructor).
  split; [exact H|].
  apply (CaptureException_releases_lock
           [Some (StdException "X"); Some (OtherException 7)]
           ThreadExceptionHelper_new
           [0; 1; 1; 0; 1; 1; 1; 0; 0; 0]%nat eq_refl H).
Defined.

(** X12: exactly one signal survives a race. When threads call
    CaptureException on a new helper, in any interleaving, and all have
    returned, the slot holds the exception of one of the callers; it is
    null only when no caller had an exception in flight. *)
Theorem CaptureException_one_survives
    (curs : list exception_ptr) (sched : list nat) :
  let final := run_schedule sched (enter_all curs ThreadExceptionHelper_new) in
  all_returned final ->
  match ex_ptr_ (helper final) with
  | Some e => Some e ∈ curs
  | None => Forall (fun cur => cur = None) curs
  end.
Proof. apply CaptureException_concurrent_outcome. Qed.

Lemma CaptureException_one_survives_witness :
  let curs := [Some (StdException "X"); Some (OtherException 7)] in
  let final :=
    run_schedule [0; 1; 1; 0; 1; 1; 1; 0; 0; 0]%nat
      (enter_all curs ThreadExceptionHelper_new) in
  all_returned final /\ Some (OtherException 7) ∈ curs.
Proof.
  intros curs final.
  assert (H : all_returned final) by (repeat constructor).
  split; [exact H|].
  apply (CaptureException_one_survives curs
           [0; 1; 1; 0; 1; 1; 1; 0; 0; 0]%nat H).
Defined.

(** X13: threads that make their calls one after the other, each running
    its five statements without interruption, leave the helper exactly as
    the calls of CaptureException made in that order do, with every call
    returned. *)
Theorem CaptureException_one_by_one
    (curs : list exception_ptr) (h : ThreadExceptionHelper) :
  lock_ h = None ->
  run_schedule (one_by_one 0 (length curs)) (enter_all curs h) =
    Config (capture_all curs h) (MkCall Returned <$> curs).
Proof. intros Hfree. by apply (run_one_by_one [] curs h). Qed.

Lemma CaptureException_one_by_one_witness :
  let curs := [None; Some (StdException "X"); Some (OtherException 7)] in
  lock_ ThreadExceptionHelper_new = None /\
  helper (run_schedule (one_by_one 0 3) (enter_all curs ThreadExceptionHelper_new))
  = Helper (Some (StdException "X")) None.
Proof.
  intros curs. split; [reflexivity|].
  exact (f_equal helper
           (CaptureException_one_by_one curs ThreadExceptionHelper_new
              eq_refl)).
Defined.

(** * More on the macros *)

Lemma run_bodies_warnings bodies r :
  warnings (run_bodies bodies r) = warnings r ++ thrown_whats bodies.
Proof.
  revert r. induction bodies as [|body bodies IH]; intros r.
  - simpl. by rewrite app_nil_r.
  - change (run_bodies (body :: bodies) r)
      with (run_bodies bodies (snd (OMP_LOOP_EX body r))).
    rewrite IH. destruct body as [|[what|id]]; simpl; try done.
    by rewrite <- app_assoc.
Qed.

(** X14: a body between OMP_LOOP_EX_BEGIN() and OMP_LOOP_EX_END() never
    lets an exception out, and over the iterations of a loop every
    std::exception thrown has its what() text written as a warning, in
    order, whether its signal is the one kept or one that is dropped;
    exceptions of other types are kept or dropped without a warning. *)
Theorem OMP_LOOP_EX_logs_every_exception
    (bodies : list completion) (r : region) :
  Forall (fun body => forall r', fst (OMP_LOOP_EX body r') = Normal) bodies /\
  warnings (run_bodies bodies r) = warnings r ++ thrown_whats bodies.
Proof.
  split.
  - apply Forall_forall. intros body _ r'. apply OMP_LOOP_EX_normal.
  - apply run_bodies_warnings.
Qed.

(** * Numerals beyond the range of an int *)

Lemma to_int32_wrap n k : to_int32 (n + k * 2 ^ 32) = to_int32 n.
Proof.
  unfold to_int32.
  replace (n + k * 2 ^ 32 + 2 ^ 31) with (n + 2 ^ 31 + k * 2 ^ 32) by lia.
  by rewrite Z.mod_add.
Qed.

(** X15: where long has 64 bits, a numeral beyond INT32_MAX that a long
    still holds is not refused: it is reduced modulo 2^32. A numeral for
    n + k * 2^32, with n from 1 to INT32_MAX, gives the override n. *)
Theorem LGBM_DEFAULT_NUM_THREADS_wraps_modulo
    (p : process) (d : Z) (ds : list Z) (n k : Z) :
  abi p = LP64 ->
  environ p !! "LGBM_DEFAULT_NUM_THREADS" = Some (numeral (d :: ds)) ->
  Forall is_digit (d :: ds) ->
  numeral_value (d :: ds) = n + k * 2 ^ 32 ->
  0 <= k -> 1 <= n <= INT32_MAX ->
  numeral_value (d :: ds) <= LONG_MAX LP64 ->
  eval LGBM_DEFAULT_NUM_THREADS p = n.
Proof.
  intros Habi Henv Hds Hv Hk Hn Hmax.
  rewrite LGBM_DEFAULT_NUM_THREADS_eval, Henv, Habi.
  rewrite strtol10_numeral by done. unfold fst.
  rewrite Z.min_r by lia. rewrite Hv, to_int32_wrap.
  rewrite to_int32_small by (unfold INT32_MIN; lia).
  destruct (Z.gtb_spec n 0); [done | lia].
Qed.

Lemma LGBM_DEFAULT_NUM_THREADS_wraps_modulo_witness :
  let ds := [4; 2; 9; 4; 9; 6; 7; 3; 0; 4] in
  let p := fresh_process LP64 {["LGBM_DEFAULT_NUM_THREADS" := numeral ds]}
             (OmpRuntime 8 (fun n => n)) in
  numeral ds = "4294967304"%string /\
  eval LGBM_DEFAULT_NUM_THREADS p = 8.
Proof.
  intros ds p. split; [reflexivity|].
  apply (LGBM_DEFAULT_NUM_THREADS_wraps_modulo p 4
           [2; 9; 4; 9; 6; 7; 3; 0; 4] 8 1).
  - reflexivity.
  - reflexivity.
  - repeat constructor; unfold is_digit; lia.
  - reflexivity.
  - lia.
  - unfold INT32_MAX. lia.
  - vm_compute. discriminate.
Defined.
